(** * Qupid: example scripts driving networkx/numpy, Strawberry Fields and fbpic

    The repository consists of three scripts:
    - [xanadu/graph_custom.py]  (functions [graph_custom], [gen_random_search]
      and a [__main__] block),
    - [xanadu/teleportation.py] (module-level code),
    - [insr/simulation.py]      (module-level code).

    The scripts are embedded as programs of a state-and-exception monad over a
    [World] that holds what the scripts can observe of their environment: the
    entropy consumed by numpy's global generator, the answers of the external
    libraries, the chronological log of library calls, and the files written
    by name.  The external libraries themselves are not part of the
    repository; only the part of their interface that the scripts rely on is
    modelled. *)

From stdpp Require Import gmap strings list relations.
From Stdlib Require Import ZArith Lia.

Local Open Scope Z_scope.
Set Warnings "-clear-no-such-hyp".

(** ** Exceptions and results *)

Inductive exn :=
| ValueError                       (* numpy: invalid argument *)
| NetworkXPointlessConcept         (* networkx: the null graph is not a tree *)
| LibraryError (origin : string).  (* any other exception raised inside a library *)

Inductive Result (A : Type) :=
| Ok (a : A)
| Raise (e : exn).
Arguments Ok {A} a.
Arguments Raise {A} e.

Definition exn_of {A} (r : Result A) : option exn :=
  match r with Ok _ => None | Raise e => Some e end.

(** ** Undirected graphs, as the scripts use [networkx.Graph]

    An [nx.Graph] is abstracted to its node set and its set of undirected
    edges; the edge between [u] and [v] is stored once, as the ordered pair
    [(Z.min u v, Z.max u v)]. *)

Record Graph := mkGraph {
  nodes : gset Z;
  edges : gset (Z * Z)
}.

Definition edge_key (u v : Z) : Z * Z := (Z.min u v, Z.max u v).

(** [G.has_edge(u, v)] *)
Definition nx_has_edge (G : Graph) (u v : Z) : bool :=
  bool_decide (edge_key u v ∈ edges G).

(** [G.add_edge(u, v)]: networkx adds the endpoints that are not nodes yet,
    and adding an edge that is present leaves the structure as it is. *)
Definition nx_add_edge (G : Graph) (u v : Z) : Graph :=
  {| nodes := {[u; v]} ∪ nodes G;
     edges := {[edge_key u v]} ∪ edges G |}.

(** [G.number_of_edges()] *)
Definition number_of_edges (G : Graph) : nat := size (edges G).

Definition adjacent (G : Graph) (a b : Z) : Prop := edge_key a b ∈ edges G.

(** every edge joins two nodes of the graph *)
Definition edges_closed (G : Graph) : Prop :=
  ∀ a b, (a, b) ∈ edges G → a ∈ nodes G ∧ b ∈ nodes G.

(** no self-loop: with edges stored as [(min, max)], an edge is a strictly
    ordered pair; so an undirected edge is not stored in both directions
    either *)
Definition loop_free (G : Graph) : Prop :=
  ∀ a b, (a, b) ∈ edges G → a < b.

(** [nx.is_connected(G)]: there is a node, and any two nodes are joined by a
    path of edges *)
Definition connected (G : Graph) : Prop :=
  nodes G ≠ ∅ ∧ ∀ a b, a ∈ nodes G → b ∈ nodes G → rtc (adjacent G) a b.

(** the node set [{0, ..., n-1}] *)
Definition node_range (n : Z) : gset Z := list_to_set (seqZ 0 n).

(** a simple graph on the nodes [0 .. n-1] *)
Definition simple_on (n : Z) (G : Graph) : Prop :=
  nodes G = node_range n ∧ edges_closed G ∧ loop_free G ∧
  NoDup (elements (edges G)).

(** What [nx.generators.trees.random_tree(n)] returns for [n >= 2]: a tree on
    the nodes [0 .. n-1], that is a connected simple graph with [n - 1]
    edges. *)
Definition is_tree (n : Z) (T : Graph) : Prop :=
  simple_on n T ∧ connected T ∧ Z.of_nat (number_of_edges T) = n - 1.

(** ** Values passed to and returned by the libraries

    Objects built by a library are opaque: [VObj k] is the object returned by
    the [k]-th library call of the run.  Floating-point quantities are kept
    as written. *)

#[warnings="-register-all"]
Inductive value :=
| VNone
| VBool (b : bool)
| VInt (z : Z)
| VFloat (lit : string)
| VImag (lit : string)
| VStr (s : string)
| VName (name : string)                 (* a name imported from a library *)
| VObj (id : nat)
| VGraph (G : Graph)
| VKw (key : string) (v : value)        (* keyword argument  key=v *)
| VList (items : list value)
| VTuple (items : list value)
| VAttr (obj : value) (attr : string)   (* obj.attr *)
| VIndex (obj : value) (i : Z)          (* obj[i] *)
| VNeg (a : value)                      (* -a *)
| VBin (op : string) (a b : value)      (* a op b *)
| VApp (fn : string) (args : list value) (* a pure builtin applied, e.g. abs *)
| VExn (e : exn).                       (* an exception in flight *)

Record event := Ev {
  ev_fn : string;
  ev_args : list value;
  ev_exn : option exn
}.

(** ** The world and the script monad *)

Record World := mkWorld {
  rng : list Z;                 (* raw draws of numpy's global generator *)
  tree_of : Z → Result Graph;   (* outcome of random_tree(n) in this run *)
  faults : nat → option exn;    (* does the k-th library call raise? *)
  log : list event;             (* library calls made so far, newest first *)
  files : gmap string value     (* files written by name *)
}.

Definition trace (w : World) : list event := reverse (log w).

Definition set_log (l : list event) (w : World) : World :=
  mkWorld (rng w) (tree_of w) (faults w) l (files w).
Definition set_rng (r : list Z) (w : World) : World :=
  mkWorld r (tree_of w) (faults w) (log w) (files w).
Definition set_files (f : gmap string value) (w : World) : World :=
  mkWorld (rng w) (tree_of w) (faults w) (log w) f.

Definition M (A : Type) : Type := World → Result A * World.

Definition ret {A} (a : A) : M A := λ w, (Ok a, w).

Definition bind {A B} (m : M A) (f : A → M B) : M B :=
  λ w, match m w with
       | (Ok a, w') => f a w'
       | (Raise e, w') => (Raise e, w')
       end.

#[export] Instance M_ret : MRet M := @ret.
#[export] Instance M_bind : MBind M := λ A B f m, bind m f.

(** a library call whose outcome [r] is known: it is logged and returned *)
Definition lib {A} (fn : string) (args : list value) (r : Result A) : M A :=
  λ w, (r, set_log (Ev fn args (exn_of r) :: log w) w).

(** a call into a library whose result is opaque to the script: it raises if
    the world says so, and returns a fresh object otherwise *)
Definition call (fn : string) (args : list value) : M value :=
  λ w, let k := length (log w) in
       lib fn args (match faults w k with
                    | Some e => Raise e
                    | None => Ok (VObj k)
                    end) w.

(** an exception already in flight continues to unwind *)
Definition reraise {A} (e : exn) : M A := λ w, (Raise e, w).

(** [with ctx as q: body].  [__enter__] yields [q]; [__exit__] runs on both
    the normal and the exceptional way out.  The context managers the scripts
    use ([Program.context] of Strawberry Fields) return [None] from
    [__exit__], so an exception raised in the body is not suppressed; an
    exception raised by [__exit__] itself replaces it. *)
Definition with_context {A} (ctx : value) (body : value → M A) : M A :=
  q ← call "__enter__" [ctx];
  ((λ w, match body q w with
         | (Ok a, w') =>
             (call "__exit__" [ctx; VNone; VNone; VNone];; ret a) w'
         | (Raise e, w') =>
             (call "__exit__" [ctx; VExn e];; reraise e) w'
         end) : M A).

(** [obj.attr = v] on a library object *)
Definition setattr (obj : value) (attr : string) (v : value) : M value :=
  call "setattr" [obj; VStr attr; v].

(** [np.save(file, arr)]: the library call, then the file holds [arr] *)
Definition np_save (file : string) (arr : value) : M value :=
  r ← call "np.save" [VStr file; arr];
  ((λ w, (Ok r, set_files (<[file := arr]> (files w)) w)) : M value).

(** [np.load(file)]: part of numpy's interface, used by none of the scripts;
    it is what reading a file left behind by another run would look like *)
Definition np_load (file : string) : M value :=
  λ w, match files w !! file with
       | Some v => lib "np.load" [VStr file] (Ok v) w
       | None => lib "np.load" [VStr file] (Raise (LibraryError "FileNotFoundError")) w
       end.

(** [for _ in range(n): acc = body(acc)] *)
Fixpoint for_range {A} (n : nat) (body : A → M A) (acc : A) : M A :=
  match n with
  | O => ret acc
  | S n' => acc' ← body acc; for_range n' body acc'
  end.

(** ** numpy and networkx, as far as [graph_custom] relies on them *)

(** next raw draw of the generator *)
Definition draw : M Z :=
  λ w, (Ok (hd 0 (rng w)), set_rng (tl (rng w)) w).

(** [np.random.randint(low, high)]: uniform on [low, high); ValueError when
    [low >= high] *)
Definition randint (low high : Z) : M Z :=
  r ← draw;
  lib "np.random.randint" [VInt low; VInt high]
      (if low <? high then Ok (low + r `mod` (high - low)) else Raise ValueError).

(** [np.random.choice(n, 2, replace=False)]: two distinct elements of
    [0 .. n-1]; ValueError when the population has fewer than two elements *)
Definition choice2 (n : Z) : M (Z * Z) :=
  r1 ← draw;
  r2 ← draw;
  lib "np.random.choice" [VInt n; VInt 2; VKw "replace" (VBool false)]
      (if n <? 2 then Raise ValueError
       else let u := r1 `mod` n in
            let k := r2 `mod` (n - 1) in
            Ok (u, if k <? u then k else k + 1)).

Definition random_tree (n : Z) : M Graph :=
  λ w, lib "nx.generators.trees.random_tree" [VInt n] (tree_of w n) w.

Definition has_edge (G : Graph) (u v : Z) : M bool :=
  lib "G.has_edge" [VGraph G; VInt u; VInt v] (Ok (nx_has_edge G u v)).

Definition add_edge (G : Graph) (u v : Z) : M Graph :=
  lib "G.add_edge" [VGraph G; VInt u; VInt v] (Ok (nx_add_edge G u v)).

(** ** xanadu/graph_custom.py *)

(** [def graph_custom(n_nodes=10, show_plot=False)] *)
Definition graph_custom (n_nodes : Z) (show_plot : bool) : M Graph :=
  G ← random_tree n_nodes;
  n_extra_edges ← randint 1 (n_nodes + 1);
  G ← for_range (Z.to_nat n_extra_edges)
         (λ G, '(u, v) ← choice2 n_nodes;
               present ← has_edge G u v;
               if negb present then add_edge G u v else ret G) G;
  (if show_plot
   then call "nx.draw" [VGraph G; VKw "with_labels" (VBool true)];;
        call "plt.show" [];;
        ret tt
   else ret tt);;
  ret G.

(** [def gen_random_search(G, n_nodes=10)]; the function has no [return]
    statement, so it returns [None] *)
Definition gen_random_search (G : Graph) (n_nodes : Z) : M value :=
  m ← call "nx.adjacency_matrix" [VGraph G];
  A ← call ".todense" [m];
  call "print" [VStr "got adjacency matrix"];;
  prog ← call "sf.Program" [VInt n_nodes];
  with_context (VAttr prog "context") (λ q,
    op ← call "GraphEmbed" [A];
    call "__or__" [op; q];;
    op ← call "MeasureFock" [];
    call "__or__" [op; q]);;
  eng ← call "sf.Engine" [VKw "backend" (VStr "gaussian")];
  results ← call "eng.run" [eng; prog; VKw "shots" (VInt 1000)];
  call "print" [VStr "Measured photon numbers per mode:";
                VAttr results "samples"];;
  np_save "samples.npy" (VAttr results "samples");;
  ret VNone.

(** the module body: two [def]s, then the [if __name__ == '__main__':] block *)
Definition graph_custom_py (dunder_name : string) : M value :=
  if String.eqb dunder_name "__main__"
  then G ← graph_custom 10 true;
       gen_random_search G 10
  else ret VNone.

(** running the file as a script *)
Definition graph_custom_script : M value := graph_custom_py "__main__".

Definition graph_custom_imports : list string :=
  ["numpy"; "networkx"; "matplotlib.pyplot"; "strawberryfields";
   "strawberryfields.ops"].

(** ** xanadu/teleportation.py *)

Module Teleportation.

Definition np_pi : value := VAttr (VName "np") "pi".

Definition alpha : value := VBin "+" (VInt 1) (VImag "0.5j").
Definition r : value := VApp "abs" [alpha].

Definition teleportation : M value :=
  call "np.random.seed" [VInt 47];;
  prog ← call "sf.Program" [VInt 3];
  phi ← call "np.angle" [alpha];
  with_context (VAttr prog "context") (λ q,
    g ← call "Coherent" [r; phi];
    call "__or__" [g; VIndex q 0];;
    g ← call "Squeezed" [VNeg (VInt 2)];
    call "__or__" [g; VIndex q 1];;
    g ← call "Squeezed" [VInt 2];
    call "__or__" [g; VIndex q 2];;
    BS ← call "BSgate" [VBin "/" np_pi (VInt 4); np_pi];
    call "__or__" [BS; VTuple [VIndex q 1; VIndex q 2]];;
    call "__or__" [BS; VTuple [VIndex q 0; VIndex q 1]];;
    call "__or__" [VName "MeasureX"; VIndex q 0];;
    call "__or__" [VName "MeasureP"; VIndex q 1];;
    s ← call "np.sqrt" [VInt 2];
    g ← call "Xgate" [VBin "*" s (VAttr (VIndex q 0) "par")];
    call "__or__" [g; VIndex q 2];;
    s ← call "np.sqrt" [VInt 2];
    g ← call "Zgate" [VBin "*" (VNeg s) (VAttr (VIndex q 1) "par")];
    call "__or__" [g; VIndex q 2]);;
  eng ← call "sf.RemoteEngine" [VStr "simulon_gaussian"];
  results ← call "eng.run" [eng; prog; VKw "shots" (VInt 1)];
  call "print" [VAttr results "samples"];;
  ret VNone.

Definition imports : list string :=
  ["strawberryfields"; "strawberryfields.ops"; "numpy"; "matplotlib.pyplot"].

End Teleportation.

(** ** insr/simulation.py *)

Module Simulation.

Definition Nz : value := VInt 200.
Definition zmax : value := VFloat "10.e-6".
Definition zmin : value := VInt 0.
Definition Nr : value := VInt 50.
Definition rmax : value := VFloat "25.e-6".
Definition c : value := VInt 299792458.
Definition dt : value := VBin "/" (VBin "/" zmax Nz) c.

Definition gamma_bunch : value := VFloat "400.".
Definition sig_r : value := VFloat "1.e-6".
Definition sig_z : value := VFloat "1.e-6".
Definition n_e : value := VFloat "4.e24".
Definition Q : value := VNeg (VFloat "10.e-12").

Definition plasma_density : value := VFloat "1.e24".

Definition simulation : M value :=
  sim ← call "Simulation" [Nz; zmax; Nr; rmax; dt;
                           VKw "boundaries" (VStr "open")];
  call "sim.add_plasma" [sim; VKw "density" plasma_density];;
  call "add_elec_bunch" [sim; VKw "gamma0" gamma_bunch; VKw "sig_r" sig_r;
                         VKw "sig_z" sig_z; VKw "n_emit" (VFloat "0.");
                         VKw "n_part" (VFloat "1.e5"); VKw "Q" Q];;
  fd ← call "FieldDiagnostic" [VKw "period" (VInt 100); VKw "sim" sim];
  pd ← call "ParticleDiagnostic"
            [VKw "period" (VInt 100); VKw "sim" sim;
             VKw "species" (VIndex (VAttr sim "ptcl") 0)];
  setattr sim "diags" (VList [fd; pd]);;
  call "sim.step" [sim; VInt 1000];;
  ret VNone.

Definition imports : list string :=
  ["fbpic.main"; "fbpic.openpmd_diag"; "fbpic.lpa_utils.bunch"].

End Simulation.

(** the modules and packages of the repository itself *)
Definition repo_modules : list string :=
  ["xanadu"; "xanadu.graph_custom"; "graph_custom";
   "xanadu.teleportation"; "teleportation";
   "insr"; "insr.simulation"; "simulation"].

(** * Vocabulary of the properties *)

Definition no_faults (w : World) : Prop := ∀ k, faults w k = None.

(** [wp m w Q E]: run from [w], [m] either returns a value satisfying [Q] or
    raises an exception satisfying [E]. *)
Definition wp {A} (m : M A) (w : World)
    (Q : A → World → Prop) (E : exn → World → Prop) : Prop :=
  match m w with
  | (Ok a, w') => Q a w'
  | (Raise e, w') => E e w'
  end.

(** invariant of the edge-adding loop of [graph_custom n_nodes] after [k]
    iterations, started on the tree [T] in a world with the faults of [w0] *)
Definition loop_inv (n_nodes : Z) (T : Graph) (w0 : World)
    (k : nat) (G : Graph) (w : World) : Prop :=
  nodes G = node_range n_nodes ∧ edges_closed G ∧ loop_free G ∧
  connected G ∧ edges T ⊆ edges G ∧
  (number_of_edges G ≤ number_of_edges T + k)%nat ∧
  faults w = faults w0.

(** what holds of the graph that [graph_custom n_nodes] returns *)
Definition graph_custom_post (n_nodes : Z) (G : Graph) : Prop :=
  simple_on n_nodes G ∧ connected G ∧
  n_nodes - 1 ≤ Z.of_nat (number_of_edges G) ≤ 2 * n_nodes - 1.

(** ** Exceptions raised by library calls *)

(** the exception of the most recent raising call of a log (newest first) *)
Fixpoint last_raised (l : list event) : option exn :=
  match l with
  | [] => None
  | ev :: l' =>
      match ev_exn ev with
      | Some e => Some e
      | None => last_raised l'
      end
  end.

(** [uncaught m]: whatever the world, the outcome of [m] is dictated by the
    library calls it made: it raises exactly when one of them raised, and
    then with the exception of the last call that raised. *)
Definition uncaught {A} (m : M A) : Prop :=
  ∀ w, ∃ new, log (m w).2 = new ++ log w ∧
              last_raised new = exn_of (m w).1.

(** [try: m except: handler], which none of the scripts use *)
Definition try_except {A} (m : M A) (handler : exn → M A) : M A :=
  λ w, match m w with
       | (Ok a, w') => (Ok a, w')
       | (Raise e, w') => handler e w'
       end.

(** ** Straight-line programs *)

(** a library call with its arguments; [VObj k] in an argument is the result
    of the [k]-th call of the run *)
Definition libcall : Type := string * list value.

(** statements without branches or loops: a library call (its result bound
    to a name or dropped), or a [with] block around a sequence of calls *)
Inductive stmt :=
| SCall (c : libcall)
| SWith (ctx : value) (body : list libcall).

Definition exec_calls (cs : list libcall) : M value :=
  foldr (λ c k, call c.1 c.2;; k) (mret VNone) cs.

Definition exec_stmt (s : stmt) : M value :=
  match s with
  | SCall c => call c.1 c.2
  | SWith ctx body => with_context ctx (λ _, exec_calls body)
  end.

(** the sequential composition of the statements, run as a script *)
Definition straight (p : list stmt) : M value :=
  foldr (λ s k, exec_stmt s;; k) (mret VNone) p.

(** number of library calls of a statement *)
Definition stmt_calls (s : stmt) : nat :=
  match s with
  | SCall _ => 1
  | SWith _ body => 2 + length body
  end.

Definition program_calls (p : list stmt) : nat :=
  foldr (λ s k, stmt_calls s + k)%nat 0%nat p.

(** library functions a statement names *)
Definition stmt_names (s : stmt) : list string :=
  match s with
  | SCall c => [c.1]
  | SWith _ body => "__enter__" :: "__exit__" :: (fst <$> body)
  end.

Definition program_names (p : list stmt) : list string :=
  concat (stmt_names <$> p).

(** a script is straight-line when, started as a fresh process, it behaves
    as some sequential composition of such statements *)
Definition is_straight_line (m : M value) : Prop :=
  ∃ p, ∀ w, log w = [] → m w = straight p w.

Module Teleportation_flat.
Import Teleportation.

(** teleportation.py, statement by statement *)
Definition program : list stmt :=
  let q := VObj 3 in
  [ SCall ("np.random.seed", [VInt 47]);
    SCall ("sf.Program", [VInt 3]);
    SCall ("np.angle", [alpha]);
    SWith (VAttr (VObj 1) "context")
      [ ("Coherent", [r; VObj 2]);
        ("__or__", [VObj 4; VIndex q 0]);
        ("Squeezed", [VNeg (VInt 2)]);
        ("__or__", [VObj 6; VIndex q 1]);
        ("Squeezed", [VInt 2]);
        ("__or__", [VObj 8; VIndex q 2]);
        ("BSgate", [VBin "/" np_pi (VInt 4); np_pi]);
        ("__or__", [VObj 10; VTuple [VIndex q 1; VIndex q 2]]);
        ("__or__", [VObj 10; VTuple [VIndex q 0; VIndex q 1]]);
        ("__or__", [VName "MeasureX"; VIndex q 0]);
        ("__or__", [VName "MeasureP"; VIndex q 1]);
        ("np.sqrt", [VInt 2]);
        ("Xgate", [VBin "*" (VObj 15) (VAttr (VIndex q 0) "par")]);
        ("__or__", [VObj 16; VIndex q 2]);
        ("np.sqrt", [VInt 2]);
        ("Zgate", [VBin "*" (VNeg (VObj 18)) (VAttr (VIndex q 1) "par")]);
        ("__or__", [VObj 19; VIndex q 2]) ];
    SCall ("sf.RemoteEngine", [VStr "simulon_gaussian"]);
    SCall ("eng.run", [VObj 22; VObj 1; VKw "shots" (VInt 1)]);
    SCall ("print", [VAttr (VObj 23) "samples"]) ].
End Teleportation_flat.

Module Simulation_flat.
Import Simulation.

(** simulation.py, statement by statement *)
Definition program : list stmt :=
  let sim := VObj 0 in
  [ SCall ("Simulation", [Nz; zmax; Nr; rmax; dt;
                          VKw "boundaries" (VStr "open")]);
    SCall ("sim.add_plasma", [sim; VKw "density" plasma_density]);
    SCall ("add_elec_bunch",
           [sim; VKw "gamma0" gamma_bunch; VKw "sig_r" sig_r;
            VKw "sig_z" sig_z; VKw "n_emit" (VFloat "0.");
            VKw "n_part" (VFloat "1.e5"); VKw "Q" Q]);
    SCall ("FieldDiagnostic", [VKw "period" (VInt 100); VKw "sim" sim]);
    SCall ("ParticleDiagnostic",
           [VKw "period" (VInt 100); VKw "sim" sim;
            VKw "species" (VIndex (VAttr sim "ptcl") 0)]);
    SCall ("setattr", [sim; VStr "diags"; VList [VObj 3; VObj 4]]);
    SCall ("sim.step", [sim; VInt 1000]) ].
End Simulation_flat.

(** [m] only makes library calls whose names are in [ns] *)
Definition logs_only (ns : list string) {A} (m : M A) : Prop :=
  ∀ w, ∃ new, log (m w).2 = new ++ log w ∧ Forall (λ ev, ev_fn ev ∈ ns) new.

(** a tree the library may return: the path [0 - 1 - ... - (n-1)] *)
Definition path_graph (n : Z) : Graph :=
  {| nodes := node_range n;
     edges := list_to_set ((λ i, (i, i + 1)) <$> seqZ 0 (n - 1)) |}.

(** a world in which no opaque call raises, [random_tree] answers with the
    path, and the generator yields the given raw draws *)
Definition sample_world (draws : list Z) : World :=
  {| rng := draws;
     tree_of := λ n, if n =? 0 then Raise NetworkXPointlessConcept
                     else Ok (path_graph n);
     faults := λ _, None;
     log := [];
     files := ∅ |}.

(** the log entry of a call that returned *)
Definition returned (c : libcall) : event := Ev c.1 c.2 None.

(** ** Independence of the scripts *)

(** what a run shows: its outcome and the library calls it made *)
Definition behaviour {A} (m : M A) (w : World) : Result A * list event :=
  ((m w).1, trace (m w).2).

(** [m] never looks at the files: changing them changes neither the outcome
    nor anything else of the final world *)
Definition ignores_files {A} (m : M A) : Prop :=
  ∀ w f, (m (set_files f w)).1 = (m w).1 ∧
         ∃ f', (m (set_files f w)).2 = set_files f' (m w).2.

(** the three scripts, each run as its own process *)
Definition scripts : list (M value) :=
  [graph_custom_script; Teleportation.teleportation; Simulation.simulation].

(** the world in which a script starts when [B] has run before it: the files
    are those that the run of [B] from [wB] left behind *)
Definition started_after {B} (other : M B) (wB w : World) : World :=
  set_files (files (other wB).2) w.

(** ** What a run of [graph_custom] logs *)

(** number of calls of the library function [fn] in a log *)
Definition count_calls (fn : string) (l : list event) : nat :=
  length (filter (λ ev, ev_fn ev = fn) l).

(** a logged [G.add_edge(u, v)] joins two distinct nodes that were not
    adjacent in [G] *)
Definition fresh_add_edge (ev : event) : Prop :=
  ev_fn ev = "G.add_edge" →
  ∃ G u v, ev_args ev = [VGraph G; VInt u; VInt v] ∧ u ≠ v ∧
           nx_has_edge G u v = false.

(** the edge-adding loop after [k] iterations, seen from the log: [base] is
    the log when the loop starts on the tree [T] *)
Definition loop_log_inv (T : Graph) (base : list event)
    (k : nat) (G : Graph) (w : World) : Prop :=
  edges T ⊆ edges G ∧ nodes T ⊆ nodes G ∧
  ∃ evs, log w = evs ++ base ∧
         count_calls "np.random.choice" evs = k ∧
         count_calls "G.has_edge" evs = k ∧
         (count_calls "G.add_edge" evs ≤ k)%nat ∧
         number_of_edges G =
           (number_of_edges T + count_calls "G.add_edge" evs)%nat.

(** from [w0] to [w'] the log grew by calls that all satisfy [P] *)
Definition logs_all (P : event → Prop) (w0 w' : World) : Prop :=
  ∃ new, log w' = new ++ log w0 ∧ Forall P new.

(** the library functions [graph_custom] calls when it does not plot *)
Definition graph_custom_core_calls : list string :=
  ["nx.generators.trees.random_tree"; "np.random.randint";
   "np.random.choice"; "G.has_edge"; "G.add_edge"].

(** the pairs [(a, b)] with [0 <= a < b < n] *)
Fixpoint pairs_below (n : nat) : list (Z * Z) :=
  match n with
  | O => []
  | S m => ((λ a, (a, Z.of_nat m)) <$> seqZ 0 (Z.of_nat m)) ++ pairs_below m
  end.

(** ** Stopping at the first failure *)

(** no call of the log raised *)
Definition calm (l : list event) : Prop :=
  Forall (λ ev, ev_exn ev = None) l.

(** the shape of what a run logged (newest first), given its outcome: when
    it returned, no call raised; when it raised, one call raised after calls
    that all returned, and the only calls after it are the [__exit__] of the
    [with] blocks being left *)
Definition unwinds (new : list event) (outcome : option exn) : Prop :=
  match outcome with
  | None => calm new
  | Some _ =>
      ∃ exits ev before,
        new = exits ++ ev :: before ∧
        Forall (λ x, ev_fn x = "__exit__") exits ∧
        ev_exn ev ≠ None ∧ calm before
  end.

Definition fail_fast {A} (m : M A) : Prop :=
  ∀ w, ∃ new, log (m w).2 = new ++ log w ∧ unwinds new (exn_of (m w).1).

(** the log entry of a call that raised [e] *)
Definition raised (c : libcall) (e : exn) : event := Ev c.1 c.2 (Some e).

(** the calls of a statement, in order, when none raises *)
Definition stmt_trace (s : stmt) : list libcall :=
  match s with
  | SCall c => [c]
  | SWith ctx body =>
      ("__enter__", [ctx]) :: body ++ [("__exit__", [ctx; VNone; VNone; VNone])]
  end.

Definition program_trace (p : list stmt) : list libcall :=
  concat (stmt_trace <$> p).

(** the calls of [gen_random_search G n_nodes] that come before [np.save],
    when it starts with [k] calls in the log *)
Definition gen_random_search_setup (G : Graph) (n_nodes : Z) (k : nat)
    : list libcall :=
  [ ("nx.adjacency_matrix", [VGraph G]);
    (".todense", [VObj k]);
    ("print", [VStr "got adjacency matrix"]);
    ("sf.Program", [VInt n_nodes]);
    ("__enter__", [VAttr (VObj (3 + k)) "context"]);
    ("GraphEmbed", [VObj (1 + k)]);
    ("__or__", [VObj (5 + k); VObj (4 + k)]);
    ("MeasureFock", []);
    ("__or__", [VObj (7 + k); VObj (4 + k)]);
    ("__exit__", [VAttr (VObj (3 + k)) "context"; VNone; VNone; VNone]);
    ("sf.Engine", [VKw "backend" (VStr "gaussian")]);
    ("eng.run", [VObj (10 + k); VObj (3 + k); VKw "shots" (VInt 1000)]);
    ("print", [VStr "Measured photon numbers per mode:";
               VAttr (VObj (11 + k)) "samples"]) ].

(** * Reasoning about monadic programs *)

Section wp_rules.
Context {A B : Type}.
Implicit Types (Q : A → World → Prop) (E : exn → World → Prop).

Lemma wp_ret (a : A) w Q E : Q a w → wp (mret a) w Q E.
Proof. done. Qed.

Lemma wp_bind (m : M B) (f : B → M A) w Q E :
  wp m w (λ b w1, wp (f b) w1 Q E) E → wp (m ≫= f) w Q E.
Proof.
  unfold wp, mbind, M_bind, bind. by destruct (m w) as [[b|e] w1].
Qed.

Lemma wp_mono (m : M A) w Q Q' E E' :
  (∀ a w', Q a w' → Q' a w') → (∀ e w', E e w' → E' e w') →
  wp m w Q E → wp m w Q' E'.
Proof. unfold wp. destruct (m w) as [[a|e] w1]; auto. Qed.

Lemma wp_lib fn args (r : Result A) w Q E :
  (let w1 := set_log (Ev fn args (exn_of r) :: log w) w in
   match r with Ok a => Q a w1 | Raise e => E e w1 end) →
  wp (lib fn args r) w Q E.
Proof. unfold wp, lib. by destruct r. Qed.
End wp_rules.

Lemma wp_draw w (Q : Z → World → Prop) E :
  Q (hd 0 (rng w)) (set_rng (tl (rng w)) w) → wp draw w Q E.
Proof. done. Qed.

Lemma wp_call fn args w (Q : value → World → Prop) E :
  (let k := length (log w) in
   match faults w k with
   | Some e => E e (set_log (Ev fn args (Some e) :: log w) w)
   | None => Q (VObj k) (set_log (Ev fn args None :: log w) w)
   end) →
  wp (call fn args) w Q E.
Proof.
  unfold call. intros H. apply wp_lib. simpl in *.
  by destruct (faults w (length (log w))).
Qed.

(** loop rule: an invariant indexed by the number of iterations done *)
Lemma wp_for_range {A} (I : nat → A → World → Prop) (body : A → M A) E :
  (∀ k a w, I k a w → wp (body a) w (I (S k)) E) →
  ∀ n k a w, I k a w → wp (for_range n body a) w (I (k + n)%nat) E.
Proof.
  intros Hbody n. induction n as [|n IH]; intros k a w HI; simpl.
  - apply wp_ret. by rewrite Nat.add_0_r.
  - apply wp_bind. eapply wp_mono; [| |by apply Hbody]; [|done].
    intros a' w' HI'. simpl.
    replace (k + S n)%nat with (S k + n)%nat by lia. by apply IH.
Qed.

(** * Graph facts *)

Lemma elem_of_node_range n a : a ∈ node_range n ↔ 0 ≤ a < n.
Proof.
  unfold node_range. rewrite elem_of_list_to_set, elem_of_seqZ. lia.
Qed.

Lemma edge_key_sym u v : edge_key u v = edge_key v u.
Proof. unfold edge_key. f_equal; lia. Qed.

Lemma adjacent_sym G a b : adjacent G a b → adjacent G b a.
Proof. unfold adjacent. by rewrite edge_key_sym. Qed.

Lemma adjacent_add_edge G u v a b :
  adjacent G a b → adjacent (nx_add_edge G u v) a b.
Proof. unfold adjacent, nx_add_edge. simpl. set_solver. Qed.

Lemma nodes_add_edge n G u v :
  nodes G = node_range n → 0 ≤ u < n → 0 ≤ v < n →
  nodes (nx_add_edge G u v) = node_range n.
Proof.
  intros HG Hu Hv. simpl. rewrite HG.
  apply elem_of_node_range in Hu, Hv. set_solver.
Qed.

Lemma connected_add_edge G u v :
  u ∈ nodes G → v ∈ nodes G → connected G → connected (nx_add_edge G u v).
Proof.
  intros Hu Hv [Hne Hpath]. split.
  - simpl. set_solver.
  - intros a b Ha Hb.
    assert (nodes (nx_add_edge G u v) = nodes G) as Hn by (simpl; set_solver).
    rewrite Hn in Ha, Hb.
    eapply rtc_subrel; [|by apply Hpath]. intros. by apply adjacent_add_edge.
Qed.

Lemma edges_closed_add_edge G u v :
  u ∈ nodes G → v ∈ nodes G → edges_closed G →
  edges_closed (nx_add_edge G u v).
Proof.
  intros Hu Hv Hc a b. simpl. rewrite elem_of_union, elem_of_singleton.
  intros [Heq|Hin].
  - unfold edge_key in Heq. injection Heq as -> ->.
    destruct (Z.min_spec u v) as [[_ ->]|[_ ->]],
             (Z.max_spec u v) as [[_ ->]|[_ ->]]; set_solver.
  - destruct (Hc a b Hin). set_solver.
Qed.

Lemma loop_free_add_edge G u v :
  u ≠ v → loop_free G → loop_free (nx_add_edge G u v).
Proof.
  intros Hne Hl a b. simpl. rewrite elem_of_union, elem_of_singleton.
  intros [Heq|Hin]; [|by apply Hl].
  unfold edge_key in Heq. injection Heq as -> ->. lia.
Qed.

Lemma size_add_edge_new G u v :
  nx_has_edge G u v = false →
  number_of_edges (nx_add_edge G u v) = S (number_of_edges G).
Proof.
  unfold nx_has_edge, number_of_edges. intros H%bool_decide_eq_false. simpl.
  rewrite size_union by set_solver. by rewrite size_singleton.
Qed.

(** * The numpy draws *)

Lemma wp_randint low high w (Q : Z → World → Prop) E :
  low < high →
  (∀ r w', low ≤ r < high → faults w' = faults w → Q r w') →
  wp (randint low high) w Q E.
Proof.
  intros Hlt HQ. unfold randint. apply wp_bind, wp_draw, wp_lib.
  destruct (Z.ltb_spec low high) as [_|?]; [|lia].
  apply HQ; [|done].
  pose proof (Z.mod_pos_bound (hd 0 (rng w)) (high - low)). lia.
Qed.

Lemma wp_randint_bad low high w (Q : Z → World → Prop) (E : exn → World → Prop) :
  high ≤ low →
  (∀ w', E ValueError w') →
  wp (randint low high) w Q E.
Proof.
  intros Hle HE. unfold randint. apply wp_bind, wp_draw, wp_lib.
  destruct (Z.ltb_spec low high) as [?|_]; [lia|]. apply HE.
Qed.

Lemma wp_choice2 n w (Q : Z * Z → World → Prop) E :
  2 ≤ n →
  (∀ u v w', 0 ≤ u < n → 0 ≤ v < n → u ≠ v → faults w' = faults w →
             Q (u, v) w') →
  wp (choice2 n) w Q E.
Proof.
  intros Hn HQ. unfold choice2.
  apply wp_bind, wp_draw, wp_bind, wp_draw, wp_lib.
  destruct (Z.ltb_spec n 2) as [?|_]; [lia|]. simpl.
  set (r1 := hd 0 (rng w)). set (r2 := hd 0 (tl (rng w))).
  pose proof (Z.mod_pos_bound r1 n). pose proof (Z.mod_pos_bound r2 (n - 1)).
  apply HQ; [lia| |  |done];
    destruct (Z.ltb_spec (r2 `mod` (n - 1)) (r1 `mod` n)); lia.
Qed.

Lemma wp_choice2_bad n w (Q : Z * Z → World → Prop) (E : exn → World → Prop) :
  n < 2 →
  (∀ w', E ValueError w') →
  wp (choice2 n) w Q E.
Proof.
  intros Hn HE. unfold choice2.
  apply wp_bind, wp_draw, wp_bind, wp_draw, wp_lib.
  destruct (Z.ltb_spec n 2) as [_|?]; [|lia]. apply HE.
Qed.

(** the model of the generator leaves out no draw: every value of the range,
    and every ordered pair of distinct elements, comes out for some entropy *)
Lemma randint_any low high r w :
  low ≤ r < high → (randint low high (set_rng [r - low] w)).1 = Ok r.
Proof.
  intros Hr. unfold randint, mbind, M_bind, bind, draw, lib. simpl.
  destruct (Z.ltb_spec low high) as [_|?]; [|lia].
  rewrite Z.mod_small by lia. f_equal. lia.
Qed.

Lemma choice2_any n u v w :
  0 ≤ u < n → 0 ≤ v < n → u ≠ v →
  (choice2 n (set_rng [u; if v <? u then v else v - 1] w)).1 = Ok (u, v).
Proof.
  intros Hu Hv Hne. unfold choice2, mbind, M_bind, bind, draw, lib. simpl.
  destruct (Z.ltb_spec n 2) as [?|_]; [lia|].
  rewrite (Z.mod_small u n) by lia.
  destruct (Z.ltb_spec v u) as [Hlt|Hge].
  - rewrite (Z.mod_small v (n - 1)) by lia.
    destruct (Z.ltb_spec v u); [done|lia].
  - rewrite (Z.mod_small (v - 1) (n - 1)) by lia.
    destruct (Z.ltb_spec (v - 1) u); [lia|]. do 2 f_equal. lia.
Qed.

(** * [graph_custom] on at least two nodes *)

Section graph_custom_spec.
Variables (n_nodes : Z) (T : Graph) (w0 : World).
Hypothesis Hn : 2 ≤ n_nodes.
Hypothesis HT : is_tree n_nodes T.

Local Abbreviation loop_inv := (loop_inv n_nodes T w0).
Local Abbreviation graph_custom_post := (graph_custom_post n_nodes).

Lemma loop_inv_init : loop_inv 0 T w0.
Proof.
  destruct HT as [(Hnodes & Hclosed & Hloop & _) [Hconn _]].
  unfold loop_inv. split_and!; try done. lia.
Qed.

Lemma loop_inv_faults k G w w' :
  loop_inv k G w → faults w' = faults w → loop_inv k G w'.
Proof. unfold loop_inv. intros (?&?&?&?&?&?&?) Hf. by rewrite Hf. Qed.

Lemma loop_inv_skip k G w : loop_inv k G w → loop_inv (S k) G w.
Proof.
  unfold loop_inv. intros (?&?&?&?&?&?&?). split_and!; try done. lia.
Qed.

Lemma loop_inv_add k G w u v :
  0 ≤ u < n_nodes → 0 ≤ v < n_nodes → u ≠ v →
  nx_has_edge G u v = false →
  loop_inv k G w → loop_inv (S k) (nx_add_edge G u v) w.
Proof.
  intros Hu Hv Hne Hnew (Hnodes & Hclosed & Hloop & Hconn & Hsub & Hsize & Hf).
  assert (u ∈ nodes G) by (rewrite Hnodes; by apply elem_of_node_range).
  assert (v ∈ nodes G) by (rewrite Hnodes; by apply elem_of_node_range).
  unfold loop_inv. split_and!.
  - by apply nodes_add_edge.
  - by apply edges_closed_add_edge.
  - by apply loop_free_add_edge.
  - by apply connected_add_edge.
  - simpl. set_solver.
  - rewrite size_add_edge_new by done. lia.
  - done.
Qed.

Lemma loop_body_wp k G w E :
  loop_inv k G w →
  wp ('(u, v) ← choice2 n_nodes;
      present ← has_edge G u v;
      if negb present then add_edge G u v else mret G)
     w (loop_inv (S k)) E.
Proof.
  intros HI. apply wp_bind, wp_choice2; [done|].
  intros u v w1 Hu Hv Hne Hf1. apply wp_bind, wp_lib. simpl.
  destruct (nx_has_edge G u v) eqn:Hpresent; simpl.
  - apply wp_ret, loop_inv_skip. eapply loop_inv_faults; [done|]. by simpl.
  - apply wp_lib. simpl. apply loop_inv_add; try done.
    eapply loop_inv_faults; [done|]. by simpl.
Qed.

Lemma loop_inv_post k G w :
  Z.of_nat k ≤ n_nodes → loop_inv k G w → graph_custom_post G.
Proof.
  intros Hk (Hnodes & Hclosed & Hloop & Hconn & Hsub & Hsize & _).
  destruct HT as (_ & _ & HTsize).
  pose proof (subseteq_size _ _ Hsub) as Hle.
  unfold number_of_edges in *.
  unfold graph_custom_post, simple_on, number_of_edges.
  split_and!; try done; try lia.
  apply NoDup_elements.
Qed.

Lemma graph_custom_wp show_plot :
  tree_of w0 n_nodes = Ok T →
  wp (graph_custom n_nodes show_plot) w0
     (λ G _, graph_custom_post G)
     (λ e _, show_plot = true ∧ ∃ k, faults w0 k = Some e).
Proof.
  intros Htree. unfold graph_custom.
  apply wp_bind. unfold random_tree. apply wp_lib. rewrite Htree. simpl.
  apply wp_bind, wp_randint; [lia|]. intros r w1 Hr Hf1.
  apply wp_bind.
  eapply wp_mono; [| |apply (wp_for_range loop_inv) with (k := 0%nat)].
  - intros G w2 HI. simpl in HI.
    assert (graph_custom_post G) as Hpost
      by (eapply loop_inv_post; [|done]; lia).
    destruct HI as (_&_&_&_&_&_&Hf2).
    apply wp_bind. destruct show_plot.
    + apply wp_bind, wp_call. cbv zeta.
      destruct (faults w2 _) eqn:Hk1; [rewrite Hf2 in Hk1; by eauto|].
      apply wp_bind, wp_call. cbv zeta. simpl faults. rewrite Hf2.
      destruct (faults w0 _) eqn:Hk2; [by eauto|].
      by apply wp_ret, wp_ret.
    + by apply wp_ret, wp_ret.
  - intros e w2 He. exact He.
  - intros k G w2 HI. by apply loop_body_wp.
  - eapply loop_inv_faults; [apply loop_inv_init|]. by rewrite Hf1.
Qed.
End graph_custom_spec.

(** * [graph_custom] on fewer than two nodes *)

Lemma graph_custom_small_wp n_nodes show_plot w :
  n_nodes < 2 →
  wp (graph_custom n_nodes show_plot) w
     (λ _ _, False)
     (λ e _, tree_of w n_nodes = Raise e ∨ e = ValueError).
Proof.
  intros Hn. unfold graph_custom.
  apply wp_bind. unfold random_tree. apply wp_lib.
  destruct (tree_of w n_nodes) as [T|e]; [|by left]. simpl.
  apply wp_bind.
  destruct (Z.le_gt_cases n_nodes 0) as [Hle|Hgt].
  - apply wp_randint_bad; [lia|]. by right.
  - apply wp_randint; [lia|]. intros r w1 Hr _.
    assert (r = 1) as -> by lia. simpl.
    do 3 apply wp_bind. apply wp_choice2_bad; [done|]. by right.
Qed.

(** * Exceptions raised by library calls *)

Lemma last_raised_app l1 l2 :
  last_raised (l1 ++ l2) =
  match last_raised l1 with Some e => Some e | None => last_raised l2 end.
Proof.
  induction l1 as [|ev l1 IH]; simpl; [done|]. by destruct (ev_exn ev).
Qed.

Section uncaught_rules.
Context {A B : Type}.

Lemma uncaught_ret (a : A) : uncaught (mret a).
Proof. intros w. by exists []. Qed.

Lemma uncaught_bind (m : M B) (f : B → M A) :
  uncaught m → (∀ b, uncaught (f b)) → uncaught (m ≫= f).
Proof.
  intros Hm Hf w. destruct (Hm w) as (new1 & Hlog1 & Hexn1).
  unfold mbind, M_bind, bind. destruct (m w) as [[b|e] w1]; simpl in *.
  - destruct (Hf b w1) as (new2 & Hlog2 & Hexn2).
    exists (new2 ++ new1). rewrite Hlog2, Hlog1, app_assoc. split; [done|].
    rewrite last_raised_app, Hexn2, Hexn1. by destruct (exn_of _).
  - by exists new1.
Qed.

Lemma uncaught_lib fn args (r : Result A) : uncaught (lib fn args r).
Proof. intros w. exists [Ev fn args (exn_of r)]. by destruct r. Qed.

Lemma uncaught_if (b : bool) (m1 m2 : M A) :
  uncaught m1 → uncaught m2 → uncaught (if b then m1 else m2).
Proof. by destruct b. Qed.
End uncaught_rules.

Lemma uncaught_for_range {A} n (body : A → M A) acc :
  (∀ a, uncaught (body a)) → uncaught (for_range n body acc).
Proof.
  intros Hbody. revert acc. induction n as [|n IH]; intros acc; simpl.
  - apply uncaught_ret.
  - by apply uncaught_bind.
Qed.

Lemma uncaught_call fn args : uncaught (call fn args).
Proof. intros w. unfold call. apply uncaught_lib. Qed.

Lemma uncaught_draw : uncaught draw.
Proof. intros w. by exists []. Qed.

Lemma uncaught_randint low high : uncaught (randint low high).
Proof.
  apply uncaught_bind; [apply uncaught_draw|]. intros. apply uncaught_lib.
Qed.

Lemma uncaught_choice2 n : uncaught (choice2 n).
Proof.
  do 2 (apply uncaught_bind; [apply uncaught_draw|]; intros).
  apply uncaught_lib.
Qed.

Lemma uncaught_random_tree n : uncaught (random_tree n).
Proof. intros w. unfold random_tree. apply uncaught_lib. Qed.

Lemma uncaught_np_save file arr : uncaught (np_save file arr).
Proof.
  apply uncaught_bind; [apply uncaught_call|]. intros r w. by exists [].
Qed.

Lemma uncaught_with_context {A} ctx (body : value → M A) :
  (∀ q, uncaught (body q)) → uncaught (with_context ctx body).
Proof.
  intros Hbody. apply uncaught_bind; [apply uncaught_call|].
  intros q w. destruct (Hbody q w) as (new1 & Hlog1 & Hexn1).
  destruct (body q w) as [[a|e] w1]; simpl in *.
  - unfold mbind, M_bind, bind, call, lib, ret. simpl.
    exists (Ev "__exit__" [ctx; VNone; VNone; VNone]
               (exn_of (match faults w1 (length (log w1)) with
                        | Some e' => Raise e'
                        | None => Ok (VObj (length (log w1)))
                        end)) :: new1).
    destruct (faults w1 (length (log w1))); simpl; rewrite Hlog1;
      split; try done; simpl; by rewrite Hexn1.
  - unfold mbind, M_bind, bind, call, lib, reraise. simpl.
    exists (Ev "__exit__" [ctx; VExn e]
               (exn_of (match faults w1 (length (log w1)) with
                        | Some e' => Raise e'
                        | None => Ok (VObj (length (log w1)))
                        end)) :: new1).
    destruct (faults w1 (length (log w1))); simpl; by rewrite Hlog1.
Qed.

Create HintDb uncaught.
#[export] Hint Resolve uncaught_ret uncaught_lib uncaught_call uncaught_draw
  uncaught_randint uncaught_choice2 uncaught_random_tree uncaught_np_save
  : uncaught.

(** decompose a script along its binds, loops, branches and [with] blocks *)
Ltac uncaught_script :=
  repeat first
    [ progress auto with uncaught
    | apply uncaught_with_context
    | apply uncaught_for_range
    | apply uncaught_if
    | apply uncaught_bind
    | match goal with
      | |- ∀ _, _ => intro
      | |- uncaught (match ?x with _ => _ end) => destruct x
      | |- uncaught (ret ?a) => apply (uncaught_ret a)
      end ].

Lemma uncaught_graph_custom n_nodes show_plot :
  uncaught (graph_custom n_nodes show_plot).
Proof. unfold graph_custom, has_edge, add_edge. uncaught_script. Qed.

Lemma uncaught_gen_random_search G n_nodes :
  uncaught (gen_random_search G n_nodes).
Proof. unfold gen_random_search. uncaught_script. Qed.

Lemma uncaught_graph_custom_script : uncaught graph_custom_script.
Proof.
  unfold graph_custom_script, graph_custom_py. simpl.
  apply uncaught_bind; [apply uncaught_graph_custom|].
  intros G. apply uncaught_gen_random_search.
Qed.

Lemma uncaught_teleportation : uncaught Teleportation.teleportation.
Proof. unfold Teleportation.teleportation. uncaught_script. Qed.

Lemma uncaught_simulation : uncaught Simulation.simulation.
Proof. unfold Simulation.simulation, setattr. uncaught_script. Qed.

(** * Straight-line programs *)

(** evaluate a script on a world whose log is known, one library call after
    the other, splitting on whether that call raises *)
Ltac step_calls :=
  repeat match goal with
         | |- context [match ?f ?k with Some _ => _ | None => _ end] =>
             destruct (f k); simpl; try reflexivity
         end.

Lemma simulation_straight w :
  log w = [] → Simulation.simulation w = straight Simulation_flat.program w.
Proof.
  destruct w as [rng0 tree0 faults0 log0 files0]. simpl. intros ->.
  cbv [Simulation.simulation straight Simulation_flat.program foldr exec_stmt
       setattr mbind M_bind bind call lib mret M_ret ret fst snd
       set_log log faults rng tree_of files exn_of length].
  step_calls.
Qed.

Lemma teleportation_straight w :
  log w = [] →
  Teleportation.teleportation w = straight Teleportation_flat.program w.
Proof.
  destruct w as [rng0 tree0 faults0 log0 files0]. simpl. intros ->.
  cbv [Teleportation.teleportation straight Teleportation_flat.program foldr
       exec_stmt exec_calls with_context reraise
       mbind M_bind bind call lib mret M_ret ret fst snd
       set_log log faults rng tree_of files exn_of length].
  step_calls.
Qed.

(** ** Straight-line programs make a fixed number of calls *)

Lemma call_no_fault fn args w :
  no_faults w →
  call fn args w =
  (Ok (VObj (length (log w))), set_log (Ev fn args None :: log w) w).
Proof. intros Hnf. unfold call, lib. by rewrite Hnf. Qed.

Lemma exec_calls_no_fault cs w :
  no_faults w →
  ∃ w', exec_calls cs w = (Ok VNone, w') ∧ no_faults w' ∧
        length (log w') = (length cs + length (log w))%nat.
Proof.
  revert w. induction cs as [|c cs IH]; intros w Hnf; simpl.
  - by exists w.
  - unfold mbind, M_bind, bind. rewrite call_no_fault by done.
    destruct (IH (set_log (Ev c.1 c.2 None :: log w) w)) as (w' & -> & ? & Hlen);
      [done|].
    exists w'. split_and!; try done. rewrite Hlen. simpl. lia.
Qed.

Lemma exec_stmt_no_fault s w :
  no_faults w →
  ∃ v w', exec_stmt s w = (Ok v, w') ∧ no_faults w' ∧
          length (log w') = (stmt_calls s + length (log w))%nat.
Proof.
  intros Hnf. destruct s as [c|ctx body]; simpl.
  - rewrite call_no_fault by done. eexists _, _. by split_and!.
  - unfold with_context, mbind, M_bind, bind. rewrite call_no_fault by done.
    destruct (exec_calls_no_fault body
                (set_log (Ev "__enter__" [ctx] None :: log w) w))
      as (w1 & -> & Hnf1 & Hlen1); [done|].
    rewrite call_no_fault by done. eexists _, _. split_and!; try done.
    simpl. rewrite Hlen1. simpl. lia.
Qed.

Lemma straight_no_fault p w :
  no_faults w →
  ∃ w', straight p w = (Ok VNone, w') ∧ no_faults w' ∧
        length (log w') = (program_calls p + length (log w))%nat.
Proof.
  revert w. induction p as [|s p IH]; intros w Hnf; simpl.
  - by exists w.
  - unfold mbind, M_bind, bind.
    destruct (exec_stmt_no_fault s w Hnf) as (v & w1 & -> & Hnf1 & Hlen1).
    destruct (IH w1 Hnf1) as (w2 & -> & Hnf2 & Hlen2).
    exists w2. split_and!; try done. lia.
Qed.

(** ** Straight-line programs only make the calls they name *)

Lemma logs_only_call ns fn args : fn ∈ ns → logs_only ns (call fn args).
Proof.
  intros Hin w. eexists [_]. split; [done|]. by apply Forall_singleton.
Qed.

Lemma logs_only_ret ns {A} (a : A) : logs_only ns (mret a).
Proof. intros w. by exists []. Qed.

Lemma logs_only_bind ns {A B} (m : M B) (f : B → M A) :
  logs_only ns m → (∀ b, logs_only ns (f b)) → logs_only ns (m ≫= f).
Proof.
  intros Hm Hf w. destruct (Hm w) as (new1 & Hlog1 & Hall1).
  unfold mbind, M_bind, bind. destruct (m w) as [[b|e] w1]; simpl in *.
  - destruct (Hf b w1) as (new2 & Hlog2 & Hall2).
    exists (new2 ++ new1). rewrite Hlog2, Hlog1, app_assoc. split; [done|].
    by apply Forall_app.
  - by exists new1.
Qed.

Lemma logs_only_with_context ns {A} ctx (body : value → M A) :
  "__enter__" ∈ ns → "__exit__" ∈ ns →
  (∀ q, logs_only ns (body q)) → logs_only ns (with_context ctx body).
Proof.
  intros Henter Hexit Hbody.
  apply logs_only_bind; [by apply logs_only_call|].
  intros q w. destruct (Hbody q w) as (new1 & Hlog1 & Hall1).
  destruct (body q w) as [[a|e] w1]; simpl in *.
  - exists (Ev "__exit__" [ctx; VNone; VNone; VNone]
               (exn_of (match faults w1 (length (log w1)) with
                        | Some e' => Raise e'
                        | None => Ok (VObj (length (log w1)))
                        end)) :: new1).
    unfold mbind, M_bind, bind, call, lib, ret.
    destruct (faults w1 (length (log w1))); simpl; rewrite Hlog1;
      (split; [done|by apply Forall_cons]).
  - exists (Ev "__exit__" [ctx; VExn e]
               (exn_of (match faults w1 (length (log w1)) with
                        | Some e' => Raise e'
                        | None => Ok (VObj (length (log w1)))
                        end)) :: new1).
    unfold mbind, M_bind, bind, call, lib, reraise.
    destruct (faults w1 (length (log w1))); simpl; rewrite Hlog1;
      (split; [done|by apply Forall_cons]).
Qed.

Lemma logs_only_weaken ns ns' {A} (m : M A) :
  ns ⊆ ns' → logs_only ns m → logs_only ns' m.
Proof.
  intros Hsub Hm w. destruct (Hm w) as (new & Hlog & Hall).
  exists new. split; [done|]. eapply Forall_impl; [done|]. set_solver.
Qed.

Lemma logs_only_exec_calls cs : logs_only (fst <$> cs) (exec_calls cs).
Proof.
  induction cs as [|c cs IH]; simpl.
  - apply logs_only_ret.
  - apply logs_only_bind.
    + apply logs_only_call. set_solver.
    + intros _. eapply logs_only_weaken; [|done]. set_solver.
Qed.

Lemma logs_only_exec_stmt s : logs_only (stmt_names s) (exec_stmt s).
Proof.
  destruct s as [c|ctx body]; simpl.
  - apply logs_only_call. set_solver.
  - apply logs_only_with_context; [set_solver|set_solver|].
    intros _. eapply logs_only_weaken; [|apply logs_only_exec_calls].
    set_solver.
Qed.

Lemma logs_only_straight p : logs_only (program_names p) (straight p).
Proof.
  induction p as [|s p IH]; simpl.
  - apply logs_only_ret.
  - apply logs_only_bind.
    + eapply logs_only_weaken; [|apply logs_only_exec_stmt].
      unfold program_names. simpl. set_solver.
    + intros _. eapply logs_only_weaken; [|done].
      unfold program_names. simpl. set_solver.
Qed.

(** ** [graph_custom.py] is not straight-line *)

Lemma graph_custom_script_not_straight : ¬ is_straight_line graph_custom_script.
Proof.
  intros [p Hp].
  destruct (straight_no_fault p (sample_world [0; 1; 5]) (λ _, eq_refl))
    as (w1 & Hw1 & _ & Hl1).
  destruct (straight_no_fault p (sample_world [3; 1; 5; 7; 8]) (λ _, eq_refl))
    as (w2 & Hw2 & _ & Hl2).
  assert (length (log (graph_custom_script (sample_world [0; 1; 5])).2)
          = 21%nat) as E1 by (vm_compute; reflexivity).
  assert (length (log (graph_custom_script (sample_world [3; 1; 5; 7; 8])).2)
          = 28%nat) as E2 by (vm_compute; reflexivity).
  rewrite (Hp (sample_world [0; 1; 5]) eq_refl), Hw1 in E1.
  rewrite (Hp (sample_world [3; 1; 5; 7; 8]) eq_refl), Hw2 in E2.
  simpl in *. lia.
Qed.

(** * Runs in which no opaque call raises *)

Ltac run_calls Hnf :=
  unfold with_context, np_save, setattr, mbind, M_bind, bind, mret, M_ret, ret;
  repeat (rewrite call_no_fault by exact Hnf;
          cbn [set_log set_files log length faults rng tree_of files]).

(** whatever the libraries do, teleportation.py never builds a local engine *)
Lemma teleportation_no_local_engine w :
  log w = [] → "sf.Engine" ∉ (ev_fn <$> log (Teleportation.teleportation w).2).
Proof.
  intros Hfresh. rewrite teleportation_straight by done.
  destruct (logs_only_straight Teleportation_flat.program w)
    as (new & -> & Hall).
  rewrite Hfresh, app_nil_r. intros (ev & Hfn & Hin)%list_elem_of_fmap.
  rewrite Forall_forall in Hall. specialize (Hall ev Hin).
  rewrite <- Hfn in Hall. revert Hall. clear.
  apply (bool_decide_unpack _). by vm_compute.
Qed.

(** * Independence of the scripts *)

Section ignores_files_rules.
Context {A B : Type}.

Lemma ignores_files_ret (a : A) : ignores_files (mret a).
Proof. intros w f. split; [done|]. by exists f. Qed.

Lemma ignores_files_bind (m : M B) (k : B → M A) :
  ignores_files m → (∀ b, ignores_files (k b)) → ignores_files (m ≫= k).
Proof.
  intros Hm Hk w f. destruct (Hm w f) as [Hres (f1 & Hw)].
  unfold mbind, M_bind, bind.
  destruct (m (set_files f w)) as [r1 w1], (m w) as [r2 w2].
  simpl in *. subst. destruct r2 as [b|e]; simpl.
  - apply Hk.
  - split; [done|]. by exists f1.
Qed.

Lemma ignores_files_lib fn args (r : Result A) :
  ignores_files (lib fn args r).
Proof. intros w f. split; [done|]. by exists f. Qed.

Lemma ignores_files_if (b : bool) (m1 m2 : M A) :
  ignores_files m1 → ignores_files m2 →
  ignores_files (if b then m1 else m2).
Proof. by destruct b. Qed.
End ignores_files_rules.

Lemma ignores_files_for_range {A} n (body : A → M A) acc :
  (∀ a, ignores_files (body a)) → ignores_files (for_range n body acc).
Proof.
  intros Hbody. revert acc. induction n as [|n IH]; intros acc; simpl.
  - apply ignores_files_ret.
  - by apply ignores_files_bind.
Qed.

Lemma ignores_files_call fn args : ignores_files (call fn args).
Proof. intros w f. split; [done|]. by exists f. Qed.

Lemma ignores_files_draw : ignores_files draw.
Proof. intros w f. split; [done|]. by exists f. Qed.

Lemma ignores_files_randint low high : ignores_files (randint low high).
Proof.
  apply ignores_files_bind; [apply ignores_files_draw|].
  intros. apply ignores_files_lib.
Qed.

Lemma ignores_files_choice2 n : ignores_files (choice2 n).
Proof.
  do 2 (apply ignores_files_bind; [apply ignores_files_draw|]; intros).
  apply ignores_files_lib.
Qed.

Lemma ignores_files_random_tree n : ignores_files (random_tree n).
Proof. intros w f. split; [done|]. by exists f. Qed.

(** [np.save] writes a file, and does not read any *)
Lemma ignores_files_np_save file arr : ignores_files (np_save file arr).
Proof.
  apply ignores_files_bind; [apply ignores_files_call|].
  intros r w f. split; [done|]. by exists (<[file:=arr]> f).
Qed.

Lemma ignores_files_reraise {A} e : ignores_files (@reraise A e).
Proof. intros w f. split; [done|]. by exists f. Qed.

Lemma ignores_files_with_context {A} ctx (body : value → M A) :
  (∀ q, ignores_files (body q)) → ignores_files (with_context ctx body).
Proof.
  intros Hbody. apply ignores_files_bind; [apply ignores_files_call|].
  intros q w f. destruct (Hbody q w f) as [Hres (f1 & Hw)].
  destruct (body q (set_files f w)) as [r1 w1], (body q w) as [r2 w2].
  simpl in *. subst. destruct r2 as [a|e].
  - apply (ignores_files_bind (call "__exit__" [ctx; VNone; VNone; VNone])
             (λ _, mret a)); [apply ignores_files_call|].
    intros _. apply ignores_files_ret.
  - apply (ignores_files_bind (call "__exit__" [ctx; VExn e])
             (λ _, reraise e)); [apply ignores_files_call|].
    intros _. apply ignores_files_reraise.
Qed.

Lemma ignores_files_behaviour {A} (m : M A) w f :
  ignores_files m → behaviour m (set_files f w) = behaviour m w.
Proof.
  intros Hm. destruct (Hm w f) as [Hres (f' & Hw)].
  unfold behaviour. by rewrite Hres, Hw.
Qed.

Create HintDb ignores_files.
#[export] Hint Resolve ignores_files_ret ignores_files_lib ignores_files_call
  ignores_files_draw ignores_files_randint ignores_files_choice2
  ignores_files_random_tree ignores_files_np_save : ignores_files.

Ltac ignores_files_script :=
  repeat first
    [ progress auto with ignores_files
    | apply ignores_files_with_context
    | apply ignores_files_for_range
    | apply ignores_files_if
    | apply ignores_files_bind
    | match goal with
      | |- ∀ _, _ => intro
      | |- ignores_files (match ?x with _ => _ end) => destruct x
      | |- ignores_files (ret ?a) => apply (ignores_files_ret a)
      end ].

Lemma ignores_files_graph_custom_script : ignores_files graph_custom_script.
Proof.
  unfold graph_custom_script, graph_custom_py. simpl.
  unfold graph_custom, gen_random_search, has_edge, add_edge.
  ignores_files_script.
Qed.

Lemma ignores_files_teleportation : ignores_files Teleportation.teleportation.
Proof. unfold Teleportation.teleportation. ignores_files_script. Qed.

Lemma ignores_files_simulation : ignores_files Simulation.simulation.
Proof. unfold Simulation.simulation, setattr. ignores_files_script. Qed.

(** * The path is a tree *)

Lemma elem_of_path_edges n a b :
  (a, b) ∈ edges (path_graph n) ↔ 0 ≤ a < n - 1 ∧ b = a + 1.
Proof.
  unfold path_graph. simpl.
  rewrite elem_of_list_to_set, list_elem_of_fmap. split.
  - intros (i & [= -> ->] & Hi%elem_of_seqZ). lia.
  - intros [Ha ->]. exists a. split; [done|]. apply elem_of_seqZ. lia.
Qed.

Lemma rtc_adjacent_sym G a b :
  rtc (adjacent G) a b → rtc (adjacent G) b a.
Proof.
  induction 1 as [|x y z Hxy _ IH]; [done|].
  eapply rtc_r; [exact IH|]. by apply adjacent_sym.
Qed.

Lemma path_graph_reach n a :
  0 ≤ a < n → rtc (adjacent (path_graph n)) 0 a.
Proof.
  intros [Ha Hlt]. revert Hlt. pattern a. apply natlike_ind; [..|done].
  - intros _. apply rtc_refl.
  - intros x Hx IH Hlt. eapply rtc_r; [apply IH; lia|].
    unfold adjacent, edge_key.
    rewrite Z.min_l, Z.max_r by lia. apply elem_of_path_edges. lia.
Qed.

Lemma path_graph_is_tree n : 2 ≤ n → is_tree n (path_graph n).
Proof.
  intros Hn. unfold is_tree, simple_on. split_and!.
  - done.
  - intros a b [Ha ->]%elem_of_path_edges. simpl.
    rewrite !elem_of_node_range. lia.
  - intros a b [Ha ->]%elem_of_path_edges. lia.
  - apply NoDup_elements.
  - split.
    + intros Hempty. assert (0 ∈ nodes (path_graph n)) as H0
        by (apply elem_of_node_range; lia).
      rewrite Hempty in H0. set_solver.
    + intros a b Ha%elem_of_node_range Hb%elem_of_node_range.
      transitivity 0; [|by apply path_graph_reach].
      by apply rtc_adjacent_sym, path_graph_reach.
  - unfold number_of_edges, path_graph. simpl.
    rewrite size_list_to_set.
    + rewrite length_fmap, length_seqZ. lia.
    + apply NoDup_fmap_2; [|apply NoDup_seqZ]. intros x y [= ?]. lia.
Qed.

(** * Properties of the scripts *)

(** both halves of the specification of [graph_custom] on at least two
    nodes: what a returned graph satisfies, and that a graph is returned
    when nothing is plotted or no plotting call raises *)
Lemma graph_custom_returns n_nodes show_plot T w :
  2 ≤ n_nodes → tree_of w n_nodes = Ok T → is_tree n_nodes T →
  (∀ G w', graph_custom n_nodes show_plot w = (Ok G, w') →
           graph_custom_post n_nodes G) ∧
  (show_plot = false ∨ no_faults w →
   ∃ G w', graph_custom n_nodes show_plot w = (Ok G, w') ∧
           graph_custom_post n_nodes G).
Proof.
  intros Hn Htree HT.
  pose proof (graph_custom_wp n_nodes T w Hn HT show_plot Htree) as Hwp.
  unfold wp in Hwp. split.
  - intros G w' Hrun. by rewrite Hrun in Hwp.
  - intros Hnf. destruct (graph_custom n_nodes show_plot w) as [[G|e] w'].
    + by exists G, w'.
    + destruct Hwp as [Hshow [k Hk]].
      destruct Hnf as [Hnf|Hnf]; [congruence|by rewrite Hnf in Hk].
Qed.

(** C1. For every [n_nodes >= 2], when [random_tree] answers with a tree on
    [n_nodes] nodes, every graph returned by [graph_custom n_nodes show_plot]
    is connected; and a graph is returned whenever nothing is plotted or no
    plotting call raises. *)
Theorem graph_custom_connected n_nodes show_plot T w :
  2 ≤ n_nodes → tree_of w n_nodes = Ok T → is_tree n_nodes T →
  (∀ G w', graph_custom n_nodes show_plot w = (Ok G, w') → connected G) ∧
  (show_plot = false ∨ no_faults w →
   ∃ G w', graph_custom n_nodes show_plot w = (Ok G, w') ∧ connected G).
Proof.
  intros Hn Htree HT.
  destruct (graph_custom_returns n_nodes show_plot T w Hn Htree HT)
    as [Hpost Hret].
  split.
  - intros G w' Hrun. by destruct (Hpost G w' Hrun) as (_ & ? & _).
  - intros Hnf. destruct (Hret Hnf) as (G & w' & Hrun & _ & ? & _). eauto.
Qed.

Lemma graph_custom_connected_witness :
  let w := sample_world [4; 7; 9] in
  (2 ≤ 2 ∧ tree_of w 2 = Ok (path_graph 2) ∧ is_tree 2 (path_graph 2)) ∧
  (∀ G w', graph_custom 2 true w = (Ok G, w') → connected G) ∧
  (true = false ∨ no_faults w →
   ∃ G w', graph_custom 2 true w = (Ok G, w') ∧ connected G).
Proof.
  assert (is_tree 2 (path_graph 2)) as HT by (apply path_graph_is_tree; lia).
  split; [split_and!; [lia|reflexivity|exact HT]|].
  apply (graph_custom_connected 2 true (path_graph 2) (sample_world [4; 7; 9]));
    [lia|reflexivity|exact HT].
Defined.

(** C9. For every [n_nodes >= 2], when [random_tree] answers with a tree on
    [n_nodes] nodes, every graph returned by [graph_custom] is a simple
    graph on exactly the nodes [0 .. n_nodes-1]: no node was added, every
    edge joins two nodes, there is no self-loop and no edge is listed
    twice; and a graph is returned whenever nothing is plotted or no plotting
    call raises. *)
Theorem graph_custom_simple n_nodes show_plot T w :
  2 ≤ n_nodes → tree_of w n_nodes = Ok T → is_tree n_nodes T →
  (∀ G w', graph_custom n_nodes show_plot w = (Ok G, w') →
           nodes G = node_range n_nodes ∧ edges_closed G ∧ loop_free G ∧
           NoDup (elements (edges G))) ∧
  (show_plot = false ∨ no_faults w →
   ∃ G w', graph_custom n_nodes show_plot w = (Ok G, w') ∧
           simple_on n_nodes G).
Proof.
  intros Hn Htree HT.
  destruct (graph_custom_returns n_nodes show_plot T w Hn Htree HT)
    as [Hpost Hret].
  split.
  - intros G w' Hrun. by destruct (Hpost G w' Hrun) as (? & _).
  - intros Hnf. destruct (Hret Hnf) as (G & w' & Hrun & ? & _). eauto.
Qed.

Lemma graph_custom_simple_witness :
  let w := sample_world [2; 1; 1; 0; 0; 5; 3] in
  (2 ≤ 3 ∧ tree_of w 3 = Ok (path_graph 3) ∧ is_tree 3 (path_graph 3)) ∧
  (∀ G w', graph_custom 3 false w = (Ok G, w') →
           nodes G = node_range 3 ∧ edges_closed G ∧ loop_free G ∧
           NoDup (elements (edges G))) ∧
  (false = false ∨ no_faults w →
   ∃ G w', graph_custom 3 false w = (Ok G, w') ∧ simple_on 3 G).
Proof.
  assert (is_tree 3 (path_graph 3)) as HT by (apply path_graph_is_tree; lia).
  split; [split_and!; [lia|reflexivity|exact HT]|].
  apply (graph_custom_simple 3 false (path_graph 3)
           (sample_world [2; 1; 1; 0; 0; 5; 3]));
    [lia|reflexivity|exact HT].
Defined.

(** C10. For every [n_nodes >= 2], when [random_tree] answers with a tree on
    [n_nodes] nodes, every graph returned by [graph_custom] has at least
    [n_nodes - 1] and at most [2 * n_nodes - 1] edges; and a graph is
    returned whenever nothing is plotted or no plotting call raises. *)
Theorem graph_custom_edge_count n_nodes show_plot T w :
  2 ≤ n_nodes → tree_of w n_nodes = Ok T → is_tree n_nodes T →
  (∀ G w', graph_custom n_nodes show_plot w = (Ok G, w') →
           n_nodes - 1 ≤ Z.of_nat (number_of_edges G) ≤ 2 * n_nodes - 1) ∧
  (show_plot = false ∨ no_faults w →
   ∃ G w', graph_custom n_nodes show_plot w = (Ok G, w') ∧
           n_nodes - 1 ≤ Z.of_nat (number_of_edges G) ≤ 2 * n_nodes - 1).
Proof.
  intros Hn Htree HT.
  destruct (graph_custom_returns n_nodes show_plot T w Hn Htree HT)
    as [Hpost Hret].
  split.
  - intros G w' Hrun. by destruct (Hpost G w' Hrun) as (_ & _ & ?).
  - intros Hnf. destruct (Hret Hnf) as (G & w' & Hrun & _ & _ & ?). eauto.
Qed.

Lemma graph_custom_edge_count_witness :
  let w := sample_world [9; 0; 5; 3; 3; 8; 1] in
  (2 ≤ 10 ∧ tree_of w 10 = Ok (path_graph 10) ∧ is_tree 10 (path_graph 10)) ∧
  (∀ G w', graph_custom 10 false w = (Ok G, w') →
           10 - 1 ≤ Z.of_nat (number_of_edges G) ≤ 2 * 10 - 1) ∧
  (false = false ∨ no_faults w →
   ∃ G w', graph_custom 10 false w = (Ok G, w') ∧
           10 - 1 ≤ Z.of_nat (number_of_edges G) ≤ 2 * 10 - 1).
Proof.
  assert (is_tree 10 (path_graph 10)) as HT by (apply path_graph_is_tree; lia).
  split; [split_and!; [lia|reflexivity|exact HT]|].
  apply (graph_custom_edge_count 10 false (path_graph 10)
           (sample_world [9; 0; 5; 3; 3; 8; 1]));
    [lia|reflexivity|exact HT].
Defined.

(** C8. For every [n_nodes < 2], [graph_custom n_nodes show_plot] raises
    instead of returning a graph: either [random_tree] itself raised, or
    numpy raises [ValueError]. *)
Theorem graph_custom_small_raises n_nodes show_plot w :
  n_nodes < 2 →
  ∃ e w', graph_custom n_nodes show_plot w = (Raise e, w') ∧
          (tree_of w n_nodes = Raise e ∨ e = ValueError).
Proof.
  intros Hn. pose proof (graph_custom_small_wp n_nodes show_plot w Hn) as Hwp.
  unfold wp in Hwp.
  destruct (graph_custom n_nodes show_plot w) as [[G|e] w']; [done|eauto].
Qed.

Lemma graph_custom_small_raises_witness :
  1 < 2 ∧
  ∃ e w', graph_custom 1 false (sample_world [6; 2; 3]) = (Raise e, w') ∧
          (tree_of (sample_world [6; 2; 3]) 1 = Raise e ∨ e = ValueError).
Proof.
  split; [lia|].
  apply (graph_custom_small_raises 1 false (sample_world [6; 2; 3])). lia.
Defined.

(** where the exception of C8 comes from: with one node it is the draw of two
    distinct nodes in the loop; with no node, or a negative number of nodes,
    the run stops before the loop, in [random_tree] or in [randint] *)
Example graph_custom_one_node :
  let run := graph_custom 1 false (sample_world [6; 2; 3]) in
  run.1 = Raise ValueError ∧
  ev_fn <$> trace run.2 =
    ["nx.generators.trees.random_tree"; "np.random.randint";
     "np.random.choice"].
Proof. by vm_compute. Qed.

Example graph_custom_no_node :
  let run := graph_custom 0 false (sample_world [6; 2; 3]) in
  run.1 = Raise NetworkXPointlessConcept ∧
  ev_fn <$> trace run.2 = ["nx.generators.trees.random_tree"].
Proof. by vm_compute. Qed.

Example graph_custom_negative :
  let run := graph_custom (-1) false (sample_world [6; 2; 3]) in
  run.1 = Raise ValueError ∧
  ev_fn <$> trace run.2 =
    ["nx.generators.trees.random_tree"; "np.random.randint"].
Proof. by vm_compute. Qed.

(** C2, as stated, fails: the three scripts are not all straight-line. *)
Lemma scripts_not_all_straight_line :
  ¬ (is_straight_line graph_custom_script ∧
     is_straight_line Teleportation.teleportation ∧
     is_straight_line Simulation.simulation).
Proof. intros (H & _ & _). by apply graph_custom_script_not_straight. Qed.

(** C2, amended. teleportation.py and simulation.py are straight-line: each
    equals a branch-free, loop-free sequential composition of library calls
    (teleportation.py with one [with] block). graph_custom.py is not: it has
    a loop whose number of iterations is drawn at random, and branches. *)
Theorem straight_line_scripts :
  is_straight_line Teleportation.teleportation ∧
  is_straight_line Simulation.simulation ∧
  ¬ is_straight_line graph_custom_script.
Proof.
  split_and!.
  - exists Teleportation_flat.program. apply teleportation_straight.
  - exists Simulation_flat.program. apply simulation_straight.
  - apply graph_custom_script_not_straight.
Qed.

(** C3. No script handles errors: in every script and function of the
    repository, whatever the libraries do, the run raises exactly when a
    library call raised, and then with the exception of the last library call
    that raised; no exception is caught and none is the script's own. *)
Theorem exceptions_propagate_uncaught :
  (∀ n_nodes show_plot, uncaught (graph_custom n_nodes show_plot)) ∧
  (∀ G n_nodes, uncaught (gen_random_search G n_nodes)) ∧
  uncaught graph_custom_script ∧
  uncaught Teleportation.teleportation ∧
  uncaught Simulation.simulation.
Proof.
  split_and!.
  - apply uncaught_graph_custom.
  - apply uncaught_gen_random_search.
  - apply uncaught_graph_custom_script.
  - apply uncaught_teleportation.
  - apply uncaught_simulation.
Qed.

(** a handler would break [uncaught]: the predicate is not vacuous *)
Example try_except_is_caught :
  ¬ uncaught (try_except (call "f" []) (λ _, mret VNone)).
Proof.
  intros H.
  destruct (H {| rng := []; tree_of := λ _, Raise ValueError;
                 faults := λ _, Some ValueError; log := []; files := ∅ |})
    as (new & Hlog & Hexn).
  simpl in *. rewrite app_nil_r in Hlog. by subst new.
Qed.

(** C4. When no library call raises, [gen_random_search G n_nodes] runs the
    engine with [shots=1000], then prints [results.samples], then saves
    [results.samples] to ['samples.npy'], in that order and as its last three
    calls, and returns [None]. *)
Theorem gen_random_search_samples G n_nodes w :
  no_faults w →
  let k := length (log w) in
  let run := gen_random_search G n_nodes w in
  let prog := VObj (3 + k) in
  let q := VObj (4 + k) in
  let eng := VObj (10 + k) in
  let results := VObj (11 + k) in
  run.1 = Ok VNone ∧
  trace run.2 =
    trace w ++
    (returned <$>
     [ ("nx.adjacency_matrix", [VGraph G]);
       (".todense", [VObj k]);
       ("print", [VStr "got adjacency matrix"]);
       ("sf.Program", [VInt n_nodes]);
       ("__enter__", [VAttr prog "context"]);
       ("GraphEmbed", [VObj (1 + k)]);
       ("__or__", [VObj (5 + k); q]);
       ("MeasureFock", []);
       ("__or__", [VObj (7 + k); q]);
       ("__exit__", [VAttr prog "context"; VNone; VNone; VNone]);
       ("sf.Engine", [VKw "backend" (VStr "gaussian")]);
       ("eng.run", [eng; prog; VKw "shots" (VInt 1000)]);
       ("print", [VStr "Measured photon numbers per mode:";
                  VAttr results "samples"]);
       ("np.save", [VStr "samples.npy"; VAttr results "samples"]) ]) ∧
  files run.2 = <["samples.npy" := VAttr results "samples"]> (files w).
Proof.
  intros Hnf. destruct w as [rng0 tree0 faults0 log0 files0].
  unfold no_faults in Hnf. simpl in Hnf.
  unfold gen_random_search. run_calls Hnf.
  split_and!; [done| |done].
  unfold trace. simpl. by rewrite !reverse_cons, <- !app_assoc.
Qed.

Lemma gen_random_search_samples_witness :
  let w := sample_world [] in
  let run := gen_random_search (path_graph 2) 2 w in
  no_faults w ∧
  run.1 = Ok VNone ∧
  trace run.2 =
    returned <$>
     [ ("nx.adjacency_matrix", [VGraph (path_graph 2)]);
       (".todense", [VObj 0]);
       ("print", [VStr "got adjacency matrix"]);
       ("sf.Program", [VInt 2]);
       ("__enter__", [VAttr (VObj 3) "context"]);
       ("GraphEmbed", [VObj 1]);
       ("__or__", [VObj 5; VObj 4]);
       ("MeasureFock", []);
       ("__or__", [VObj 7; VObj 4]);
       ("__exit__", [VAttr (VObj 3) "context"; VNone; VNone; VNone]);
       ("sf.Engine", [VKw "backend" (VStr "gaussian")]);
       ("eng.run", [VObj 10; VObj 3; VKw "shots" (VInt 1000)]);
       ("print", [VStr "Measured photon numbers per mode:";
                  VAttr (VObj 11) "samples"]);
       ("np.save", [VStr "samples.npy"; VAttr (VObj 11) "samples"]) ] ∧
  files run.2 = <["samples.npy" := VAttr (VObj 11) "samples"]> ∅.
Proof.
  split; [intros k; reflexivity|].
  apply (gen_random_search_samples (path_graph 2) 2 (sample_world [])).
  intros k; reflexivity.
Defined.

(** C5. Started as a fresh process with no library call raising,
    simulation.py constructs one [Simulation], adds the plasma and the
    bunch, builds one [FieldDiagnostic] and one [ParticleDiagnostic], both
    with [period=100], assigns the list of these two objects to [sim.diags],
    and then calls [sim.step(1000)] once, in that order. *)
Theorem simulation_order w :
  log w = [] → no_faults w →
  let run := Simulation.simulation w in
  let sim := VObj 0 in
  run.1 = Ok VNone ∧
  trace run.2 =
    returned <$>
     [ ("Simulation", [Simulation.Nz; Simulation.zmax; Simulation.Nr;
                       Simulation.rmax; Simulation.dt;
                       VKw "boundaries" (VStr "open")]);
       ("sim.add_plasma", [sim; VKw "density" Simulation.plasma_density]);
       ("add_elec_bunch",
        [sim; VKw "gamma0" Simulation.gamma_bunch;
         VKw "sig_r" Simulation.sig_r; VKw "sig_z" Simulation.sig_z;
         VKw "n_emit" (VFloat "0."); VKw "n_part" (VFloat "1.e5");
         VKw "Q" Simulation.Q]);
       ("FieldDiagnostic", [VKw "period" (VInt 100); VKw "sim" sim]);
       ("ParticleDiagnostic",
        [VKw "period" (VInt 100); VKw "sim" sim;
         VKw "species" (VIndex (VAttr sim "ptcl") 0)]);
       ("setattr", [sim; VStr "diags"; VList [VObj 3; VObj 4]]);
       ("sim.step", [sim; VInt 1000]) ].
Proof.
  destruct w as [rng0 tree0 faults0 log0 files0]. simpl. intros -> Hnf.
  unfold no_faults in Hnf. simpl in Hnf.
  unfold Simulation.simulation. run_calls Hnf. by split.
Qed.

Lemma simulation_order_witness :
  let w := sample_world [] in
  let run := Simulation.simulation w in
  (log w = [] ∧ no_faults w) ∧
  run.1 = Ok VNone ∧
  trace run.2 =
    returned <$>
     [ ("Simulation", [Simulation.Nz; Simulation.zmax; Simulation.Nr;
                       Simulation.rmax; Simulation.dt;
                       VKw "boundaries" (VStr "open")]);
       ("sim.add_plasma", [VObj 0; VKw "density" Simulation.plasma_density]);
       ("add_elec_bunch",
        [VObj 0; VKw "gamma0" Simulation.gamma_bunch;
         VKw "sig_r" Simulation.sig_r; VKw "sig_z" Simulation.sig_z;
         VKw "n_emit" (VFloat "0."); VKw "n_part" (VFloat "1.e5");
         VKw "Q" Simulation.Q]);
       ("FieldDiagnostic", [VKw "period" (VInt 100); VKw "sim" (VObj 0)]);
       ("ParticleDiagnostic",
        [VKw "period" (VInt 100); VKw "sim" (VObj 0);
         VKw "species" (VIndex (VAttr (VObj 0) "ptcl") 0)]);
       ("setattr", [VObj 0; VStr "diags"; VList [VObj 3; VObj 4]]);
       ("sim.step", [VObj 0; VInt 1000]) ].
Proof.
  split; [split; [reflexivity|intros k; reflexivity]|].
  apply (simulation_order (sample_world [])); [reflexivity|].
  intros k; reflexivity.
Defined.

(** C6. teleportation.py, started as a fresh process, never builds the local
    engine of the commented-out path, whatever the libraries do; and when no
    library call raises it declares one program on 3 modes, builds one
    [RemoteEngine("simulon_gaussian")], submits the program to it once with
    [shots=1], and prints [results.samples]. *)
Theorem teleportation_remote_once w :
  log w = [] →
  let run := Teleportation.teleportation w in
  let prog := VObj 1 in
  let q := VObj 3 in
  let eng := VObj 22 in
  let results := VObj 23 in
  ("sf.Engine" ∉ (ev_fn <$> trace run.2)) ∧
  (no_faults w →
   run.1 = Ok VNone ∧
   trace run.2 =
     returned <$>
      [ ("np.random.seed", [VInt 47]);
        ("sf.Program", [VInt 3]);
        ("np.angle", [Teleportation.alpha]);
        ("__enter__", [VAttr prog "context"]);
        ("Coherent", [Teleportation.r; VObj 2]);
        ("__or__", [VObj 4; VIndex q 0]);
        ("Squeezed", [VNeg (VInt 2)]);
        ("__or__", [VObj 6; VIndex q 1]);
        ("Squeezed", [VInt 2]);
        ("__or__", [VObj 8; VIndex q 2]);
        ("BSgate", [VBin "/" Teleportation.np_pi (VInt 4);
                    Teleportation.np_pi]);
        ("__or__", [VObj 10; VTuple [VIndex q 1; VIndex q 2]]);
        ("__or__", [VObj 10; VTuple [VIndex q 0; VIndex q 1]]);
        ("__or__", [VName "MeasureX"; VIndex q 0]);
        ("__or__", [VName "MeasureP"; VIndex q 1]);
        ("np.sqrt", [VInt 2]);
        ("Xgate", [VBin "*" (VObj 15) (VAttr (VIndex q 0) "par")]);
        ("__or__", [VObj 16; VIndex q 2]);
        ("np.sqrt", [VInt 2]);
        ("Zgate", [VBin "*" (VNeg (VObj 18)) (VAttr (VIndex q 1) "par")]);
        ("__or__", [VObj 19; VIndex q 2]);
        ("__exit__", [VAttr prog "context"; VNone; VNone; VNone]);
        ("sf.RemoteEngine", [VStr "simulon_gaussian"]);
        ("eng.run", [eng; prog; VKw "shots" (VInt 1)]);
        ("print", [VAttr results "samples"]) ]).
Proof.
  intros Hfresh. cbv zeta. split.
  - unfold trace. rewrite fmap_reverse, elem_of_reverse.
    by apply teleportation_no_local_engine.
  - destruct w as [rng0 tree0 faults0 log0 files0]. simpl in Hfresh. subst log0.
    intros Hnf. unfold no_faults in Hnf. simpl in Hnf.
    unfold Teleportation.teleportation. run_calls Hnf. by split.
Qed.

Lemma teleportation_remote_once_witness :
  let w := sample_world [] in
  let run := Teleportation.teleportation w in
  log w = [] ∧
  ("sf.Engine" ∉ (ev_fn <$> trace run.2)) ∧
  (no_faults w →
   run.1 = Ok VNone ∧
   trace run.2 =
     returned <$>
      [ ("np.random.seed", [VInt 47]);
        ("sf.Program", [VInt 3]);
        ("np.angle", [Teleportation.alpha]);
        ("__enter__", [VAttr (VObj 1) "context"]);
        ("Coherent", [Teleportation.r; VObj 2]);
        ("__or__", [VObj 4; VIndex (VObj 3) 0]);
        ("Squeezed", [VNeg (VInt 2)]);
        ("__or__", [VObj 6; VIndex (VObj 3) 1]);
        ("Squeezed", [VInt 2]);
        ("__or__", [VObj 8; VIndex (VObj 3) 2]);
        ("BSgate", [VBin "/" Teleportation.np_pi (VInt 4);
                    Teleportation.np_pi]);
        ("__or__", [VObj 10; VTuple [VIndex (VObj 3) 1; VIndex (VObj 3) 2]]);
        ("__or__", [VObj 10; VTuple [VIndex (VObj 3) 0; VIndex (VObj 3) 1]]);
        ("__or__", [VName "MeasureX"; VIndex (VObj 3) 0]);
        ("__or__", [VName "MeasureP"; VIndex (VObj 3) 1]);
        ("np.sqrt", [VInt 2]);
        ("Xgate", [VBin "*" (VObj 15) (VAttr (VIndex (VObj 3) 0) "par")]);
        ("__or__", [VObj 16; VIndex (VObj 3) 2]);
        ("np.sqrt", [VInt 2]);
        ("Zgate", [VBin "*" (VNeg (VObj 18))
                             (VAttr (VIndex (VObj 3) 1) "par")]);
        ("__or__", [VObj 19; VIndex (VObj 3) 2]);
        ("__exit__", [VAttr (VObj 1) "context"; VNone; VNone; VNone]);
        ("sf.RemoteEngine", [VStr "simulon_gaussian"]);
        ("eng.run", [VObj 22; VObj 1; VKw "shots" (VInt 1)]);
        ("print", [VAttr (VObj 23) "samples"]) ]).
Proof.
  split; [reflexivity|].
  apply (teleportation_remote_once (sample_world [])). reflexivity.
Defined.

(** C7. The three scripts are mutually independent: none imports a module
    of the repository, and what a script does (its outcome and its library
    calls) is the same whether it starts from a world [w] or from [w] with
    the files left behind by a run of another program, in particular of
    another script. *)
Theorem scripts_independent :
  Forall (λ m, m ∉ repo_modules)
         (graph_custom_imports ++ Teleportation.imports ++ Simulation.imports) ∧
  ∀ (A other : M value), A ∈ scripts →
    ∀ wB w, behaviour A (started_after other wB w) = behaviour A w.
Proof.
  split.
  - apply (bool_decide_unpack _). by vm_compute.
  - intros A other HA wB w. unfold started_after.
    apply ignores_files_behaviour.
    unfold scripts in HA. rewrite !elem_of_cons in HA.
    destruct HA as [->|[->|[->|HA]]].
    + apply ignores_files_graph_custom_script.
    + apply ignores_files_teleportation.
    + apply ignores_files_simulation.
    + by apply elem_of_nil in HA.
Qed.

Lemma scripts_independent_witness :
  Simulation.simulation ∈ scripts ∧
  behaviour Simulation.simulation
    (started_after graph_custom_script (sample_world [0; 1; 5])
       (sample_world [])) =
  behaviour Simulation.simulation (sample_world []).
Proof.
  assert (Simulation.simulation ∈ scripts) as Hin
    by (unfold scripts; rewrite !elem_of_cons; auto).
  split; [exact Hin|].
  apply (proj2 scripts_independent Simulation.simulation graph_custom_script
           Hin (sample_world [0; 1; 5]) (sample_world [])).
Defined.

(** a program that reads the file is not independent of a run of
    graph_custom.py: the statement of C7 is not vacuous *)
Example np_load_depends_on_graph_custom :
  behaviour (np_load "samples.npy")
    (started_after graph_custom_script (sample_world [0; 1; 5])
       (sample_world [])) ≠
  behaviour (np_load "samples.npy") (sample_world []).
Proof. vm_compute. discriminate. Qed.

(** * More on [graph_custom]: what it logs and what it keeps *)

Lemma count_calls_nil fn : count_calls fn [] = 0%nat.
Proof. done. Qed.

Lemma count_calls_cons_eq fn ev l :
  ev_fn ev = fn → count_calls fn (ev :: l) = S (count_calls fn l).
Proof. intros H. unfold count_calls. by rewrite filter_cons_True. Qed.

Lemma count_calls_cons_ne fn ev l :
  ev_fn ev ≠ fn → count_calls fn (ev :: l) = count_calls fn l.
Proof. intros H. unfold count_calls. by rewrite filter_cons_False. Qed.

Lemma count_calls_app fn l1 l2 :
  count_calls fn (l1 ++ l2) = (count_calls fn l1 + count_calls fn l2)%nat.
Proof. unfold count_calls. by rewrite filter_app, length_app. Qed.

Ltac count_calls_simpl :=
  repeat first
    [ rewrite count_calls_cons_eq by done
    | rewrite count_calls_cons_ne by done
    | rewrite count_calls_nil ].

Lemma wp_randint_log low high w (Q : Z → World → Prop) E :
  low < high →
  (∀ r w', low ≤ r < high →
           log w' = Ev "np.random.randint" [VInt low; VInt high] None :: log w →
           Q r w') →
  wp (randint low high) w Q E.
Proof.
  intros Hlt HQ. unfold randint. apply wp_bind, wp_draw, wp_lib.
  destruct (Z.ltb_spec low high) as [_|?]; [|lia].
  apply HQ; [|done].
  pose proof (Z.mod_pos_bound (hd 0 (rng w)) (high - low)). lia.
Qed.

Lemma wp_choice2_log n w (Q : Z * Z → World → Prop) E :
  2 ≤ n →
  (∀ u v w', 0 ≤ u < n → 0 ≤ v < n → u ≠ v →
             log w' = Ev "np.random.choice"
                         [VInt n; VInt 2; VKw "replace" (VBool false)] None
                      :: log w →
             Q (u, v) w') →
  wp (choice2 n) w Q E.
Proof.
  intros Hn HQ. unfold choice2.
  apply wp_bind, wp_draw, wp_bind, wp_draw, wp_lib.
  destruct (Z.ltb_spec n 2) as [?|_]; [lia|]. simpl.
  set (r1 := hd 0 (rng w)). set (r2 := hd 0 (tl (rng w))).
  pose proof (Z.mod_pos_bound r1 n). pose proof (Z.mod_pos_bound r2 (n - 1)).
  apply HQ; [lia| |  |done];
    destruct (Z.ltb_spec (r2 `mod` (n - 1)) (r1 `mod` n)); lia.
Qed.

Lemma loop_log_body_wp n_nodes T base k G w E :
  2 ≤ n_nodes →
  loop_log_inv T base k G w →
  wp ('(u, v) ← choice2 n_nodes;
      present ← has_edge G u v;
      if negb present then add_edge G u v else mret G)
     w (loop_log_inv T base (S k)) E.
Proof.
  intros Hn (Hedges & Hnodes & evs & Hlog & Hchoice & Hhas & Hadd & Hsize).
  apply wp_bind, wp_choice2_log; [done|].
  intros u v w1 Hu Hv Hne Hlog1. apply wp_bind, wp_lib. simpl.
  destruct (nx_has_edge G u v) eqn:Hpresent; simpl.
  - apply wp_ret. split_and!; [done..|].
    eexists (_ :: _ :: evs). simpl. rewrite Hlog1, Hlog.
    split_and!; [done|..]; count_calls_simpl; [by f_equal..|lia|done].
  - apply wp_lib. simpl. split_and!; [set_solver|set_solver|].
    eexists (_ :: _ :: _ :: evs). rewrite Hlog1, Hlog.
    split_and!; [done|..]; count_calls_simpl; [by f_equal..|lia|].
    rewrite size_add_edge_new by done. lia.
Qed.

(** what a run of [graph_custom] that returns [G] has logged and kept, when
    [random_tree] answered with [T] *)
Lemma graph_custom_log_wp n_nodes show_plot T w :
  2 ≤ n_nodes → tree_of w n_nodes = Ok T →
  wp (graph_custom n_nodes show_plot) w
     (λ G w', edges T ⊆ edges G ∧ nodes T ⊆ nodes G ∧
              ∃ new, log w' = new ++ log w ∧
                (1 ≤ count_calls "np.random.choice" new ≤ Z.to_nat n_nodes)%nat ∧
                count_calls "G.has_edge" new =
                  count_calls "np.random.choice" new ∧
                (count_calls "G.add_edge" new ≤
                   count_calls "np.random.choice" new)%nat ∧
                number_of_edges G =
                  (number_of_edges T + count_calls "G.add_edge" new)%nat)
     (λ _ _, True).
Proof.
  intros Hn Htree. unfold graph_custom.
  apply wp_bind. unfold random_tree. apply wp_lib. rewrite Htree. simpl.
  apply wp_bind, wp_randint_log; [lia|]. intros r w1 Hr Hlog1. simpl in Hlog1.
  apply wp_bind.
  eapply wp_mono;
    [| |apply (wp_for_range (loop_log_inv T (log w1)) _ (λ _ _, True))
           with (k := 0%nat)].
  - intros G w2 (Hedges & Hnodes & evs & Hlog2 & Hchoice & Hhas & Hadd & Hsize).
    simpl in Hchoice, Hhas, Hadd.
    assert (∀ plot, count_calls "np.random.choice" plot = 0%nat →
                    count_calls "G.has_edge" plot = 0%nat →
                    count_calls "G.add_edge" plot = 0%nat →
              ∀ w3, log w3 = plot ++ log w2 →
              edges T ⊆ edges G ∧ nodes T ⊆ nodes G ∧
              ∃ new, log w3 = new ++ log w ∧
                (1 ≤ count_calls "np.random.choice" new ≤ Z.to_nat n_nodes)%nat ∧
                count_calls "G.has_edge" new =
                  count_calls "np.random.choice" new ∧
                (count_calls "G.add_edge" new ≤
                   count_calls "np.random.choice" new)%nat ∧
                number_of_edges G =
                  (number_of_edges T + count_calls "G.add_edge" new)%nat)
      as Hdone.
    { intros plot Hp1 Hp2 Hp3 w3 Hlog3. split_and!; [done..|].
      exists (plot ++ evs ++ [Ev "np.random.randint" [VInt 1; VInt (n_nodes + 1)] None;
                              Ev "nx.generators.trees.random_tree" [VInt n_nodes] None]).
      rewrite Hlog3, Hlog2, Hlog1, <- !app_assoc. split; [done|].
      rewrite !count_calls_app, Hp1, Hp2, Hp3, Hchoice, Hhas.
      count_calls_simpl. split_and!; lia. }
    apply wp_bind. destruct show_plot.
    + apply wp_bind, wp_call. cbv zeta.
      destruct (faults w2 _); [done|].
      apply wp_bind, wp_call. cbv zeta.
      destruct (faults _ _); [done|].
      apply wp_ret, wp_ret.
      by apply (Hdone [Ev "plt.show" [] None;
                       Ev "nx.draw" [VGraph G; VKw "with_labels" (VBool true)]
                          None]).
    + apply wp_ret, wp_ret. by apply (Hdone []).
  - done.
  - intros k G w2 HI. by apply loop_log_body_wp.
  - split_and!; [done..|]. exists []. by split_and!; [|count_calls_simpl..].
Qed.

Lemma logs_all_refl P w : logs_all P w w.
Proof. by exists []. Qed.

Lemma logs_all_cons P w0 w w' ev :
  logs_all P w0 w → P ev → log w' = ev :: log w → logs_all P w0 w'.
Proof.
  intros (new & Hlog & Hall) Hev Hlog'. exists (ev :: new).
  rewrite Hlog', Hlog. split; [done|]. by apply Forall_cons.
Qed.

Lemma logs_all_same_log P w0 w w' :
  logs_all P w0 w → log w' = log w → logs_all P w0 w'.
Proof. intros (new & Hlog & Hall) Hlog'. exists new. by rewrite Hlog'. Qed.

Lemma wp_lib_log {A} fn args (r : Result A) w (Q : A → World → Prop) E :
  (∀ w1, log w1 = Ev fn args (exn_of r) :: log w →
         match r with Ok a => Q a w1 | Raise e => E e w1 end) →
  wp (lib fn args r) w Q E.
Proof. intros H. apply wp_lib. by apply H. Qed.

Lemma wp_draw_log w (Q : Z → World → Prop) E :
  (∀ r w1, log w1 = log w → Q r w1) → wp draw w Q E.
Proof. intros H. apply wp_draw. by apply H. Qed.

Lemma wp_call_log fn args w (Q : value → World → Prop) E :
  (∀ w1 o, log w1 = Ev fn args o :: log w →
           match o with
           | Some e => E e w1
           | None => Q (VObj (length (log w))) w1
           end) →
  wp (call fn args) w Q E.
Proof.
  intros H. apply wp_call. cbv zeta.
  destruct (faults w (length (log w))) as [e|].
  - by apply (H _ (Some e)).
  - by apply (H _ None).
Qed.

(** every run of [graph_custom], returning or raising, only logs calls that
    satisfy [P], as soon as [P] holds of the calls the code can make *)
Lemma graph_custom_logs_all (P : event → Prop) n_nodes show_plot w :
  (∀ args o, P (Ev "nx.generators.trees.random_tree" args o)) →
  (∀ args o, P (Ev "np.random.randint" args o)) →
  (∀ args o, P (Ev "np.random.choice" args o)) →
  (∀ args o, P (Ev "G.has_edge" args o)) →
  (∀ G u v, u ≠ v → nx_has_edge G u v = false →
            P (Ev "G.add_edge" [VGraph G; VInt u; VInt v] None)) →
  (show_plot = true →
   ∀ args o, P (Ev "nx.draw" args o) ∧ P (Ev "plt.show" args o)) →
  logs_all P w (graph_custom n_nodes show_plot w).2.
Proof.
  intros Htree Hrandint Hchoice Hhas Hadd Hplot.
  enough (wp (graph_custom n_nodes show_plot) w
             (λ _ w', logs_all P w w') (λ _ w', logs_all P w w')) as Hwp.
  { unfold wp in Hwp.
    by destruct (graph_custom n_nodes show_plot w) as [[G|e] w']. }
  unfold graph_custom.
  apply wp_bind. unfold random_tree. apply wp_lib_log. intros w1 Hlog1.
  assert (logs_all P w w1) as H1
    by (eapply logs_all_cons; [apply logs_all_refl|apply Htree|done]).
  destruct (tree_of w n_nodes) as [T|e]; [|done].
  apply wp_bind. unfold randint.
  apply wp_bind, wp_draw_log. intros r0 w2 Hlog2.
  apply wp_lib_log. intros w3 Hlog3.
  assert (logs_all P w w3) as H3.
  { eapply logs_all_cons; [|apply Hrandint|done].
    by eapply logs_all_same_log. }
  destruct (1 <? n_nodes + 1); [|done].
  apply wp_bind.
  eapply wp_mono;
    [| |apply (wp_for_range (λ _ _ w', logs_all P w w') _
                 (λ _ w', logs_all P w w')) with (k := 0%nat)].
  - intros G w4 HI. simpl in HI. apply wp_bind. destruct show_plot.
    + apply wp_bind, wp_call_log. intros w5 o5 Hlog5.
      assert (logs_all P w w5) as H5
        by (eapply logs_all_cons; [exact HI| |exact Hlog5]; by apply Hplot).
      destruct o5; [done|].
      apply wp_bind, wp_call_log. intros w6 o6 Hlog6.
      assert (logs_all P w w6) as H6
        by (eapply logs_all_cons; [exact H5| |exact Hlog6]; by apply Hplot).
      destruct o6; [done|]. by apply wp_ret, wp_ret.
    + by apply wp_ret, wp_ret.
  - done.
  - intros k G w4 HI. unfold choice2.
    apply wp_bind, wp_bind, wp_draw_log. intros r1 w5 Hlog5.
    apply wp_bind, wp_draw_log. intros r2 w6 Hlog6.
    apply wp_lib_log. intros w7 Hlog7.
    assert (logs_all P w w7) as H7.
    { eapply logs_all_cons; [|apply Hchoice|done].
      eapply logs_all_same_log; [|done]. by eapply logs_all_same_log. }
    destruct (Z.ltb_spec n_nodes 2) as [?|Hn]; [done|]. cbv zeta.
    set (u := r1 `mod` n_nodes).
    set (v := if r2 `mod` (n_nodes - 1) <? u then r2 `mod` (n_nodes - 1)
              else r2 `mod` (n_nodes - 1) + 1).
    assert (u ≠ v) as Hne.
    { subst u v. pose proof (Z.mod_pos_bound r1 n_nodes).
      destruct (Z.ltb_spec (r2 `mod` (n_nodes - 1)) (r1 `mod` n_nodes)); lia. }
    apply wp_bind, wp_lib_log. intros w8 Hlog8.
    assert (logs_all P w w8) as H8
      by (eapply logs_all_cons; [exact H7|apply Hhas|done]).
    destruct (nx_has_edge G u v) eqn:Hpresent; simpl.
    + by apply wp_ret.
    + apply wp_lib_log. intros w9 Hlog9.
      eapply logs_all_cons; [exact H8|by apply Hadd|done].
  - exact H3.
Qed.

Lemma pairs_below_length n :
  (2 * length (pairs_below n) = n * (n - 1))%nat.
Proof.
  induction n as [|m IH]; simpl; [done|].
  rewrite length_app, length_fmap, length_seqZ, Nat2Z.id. nia.
Qed.

Lemma elem_of_pairs_below n a b :
  0 ≤ a → a < b → b < Z.of_nat n → (a, b) ∈ pairs_below n.
Proof.
  intros Ha Hab. induction n as [|m IH]; intros Hb; simpl; [lia|].
  apply elem_of_app. destruct (decide (b = Z.of_nat m)) as [->|Hne].
  - left. apply list_elem_of_fmap. exists a. split; [done|].
    apply elem_of_seqZ. lia.
  - right. apply IH. lia.
Qed.

(** a simple graph on [n] nodes has at most [n (n - 1) / 2] edges *)
Lemma simple_on_edge_bound n G :
  0 ≤ n → simple_on n G →
  2 * Z.of_nat (number_of_edges G) ≤ n * (n - 1).
Proof.
  intros Hn (Hnodes & Hclosed & Hloop & Hnodup).
  assert (length (elements (edges G)) ≤ length (pairs_below (Z.to_nat n)))%nat
    as Hle.
  { apply submseteq_length, NoDup_submseteq; [done|].
    intros [a b] Hin%elem_of_elements.
    destruct (Hclosed a b Hin) as [Ha Hb]. rewrite Hnodes in Ha, Hb.
    apply elem_of_node_range in Ha, Hb. specialize (Hloop a b Hin).
    apply elem_of_pairs_below; lia. }
  pose proof (pairs_below_length (Z.to_nat n)) as Hlen.
  unfold number_of_edges, size, set_size. simpl. nia.
Qed.

(** X1. [graph_custom] never removes anything from the tree it starts
    from: when [random_tree] answered with [T] and [graph_custom] returns
    [G], every node and every edge of [T] is a node, an edge, of [G]. *)
Theorem graph_custom_keeps_tree n_nodes show_plot w T G w' :
  tree_of w n_nodes = Ok T →
  graph_custom n_nodes show_plot w = (Ok G, w') →
  nodes T ⊆ nodes G ∧ edges T ⊆ edges G.
Proof.
  intros Htree Hrun. destruct (Z.lt_ge_cases n_nodes 2) as [Hsmall|Hn].
  - pose proof (graph_custom_small_wp n_nodes show_plot w Hsmall) as Hwp.
    unfold wp in Hwp. by rewrite Hrun in Hwp.
  - pose proof (graph_custom_log_wp n_nodes show_plot T w Hn Htree) as Hwp.
    unfold wp in Hwp. rewrite Hrun in Hwp. by destruct Hwp as (? & ? & _).
Qed.

Lemma graph_custom_keeps_tree_witness :
  let w := sample_world [2; 0; 1; 7; 4] in
  tree_of w 4 = Ok (path_graph 4) ∧
  ∃ G w', graph_custom 4 false w = (Ok G, w') ∧
          nodes (path_graph 4) ⊆ nodes G ∧ edges (path_graph 4) ⊆ edges G.
Proof.
  split; [reflexivity|].
  assert (∃ G w', graph_custom 4 false (sample_world [2; 0; 1; 7; 4]) = (Ok G, w'))
    as (G & w' & Hrun) by (eexists _, _; vm_compute; reflexivity).
  exists G, w'. split; [exact Hrun|].
  apply (graph_custom_keeps_tree 4 false (sample_world [2; 0; 1; 7; 4])
           (path_graph 4) G w' eq_refl Hrun).
Defined.

(** X2. For [n_nodes >= 2] and a tree from [random_tree], a returned graph
    has at most [n_nodes (n_nodes - 1) / 2] edges, the number of pairs of
    distinct nodes; for [n_nodes <= 4] this is below [2 n_nodes - 1]. *)
Theorem graph_custom_edges_at_most_pairs n_nodes show_plot T w G w' :
  2 ≤ n_nodes → tree_of w n_nodes = Ok T → is_tree n_nodes T →
  graph_custom n_nodes show_plot w = (Ok G, w') →
  2 * Z.of_nat (number_of_edges G) ≤ n_nodes * (n_nodes - 1).
Proof.
  intros Hn Htree HT Hrun.
  destruct (graph_custom_returns n_nodes show_plot T w Hn Htree HT)
    as [Hpost _].
  destruct (Hpost G w' Hrun) as (Hsimple & _).
  apply simple_on_edge_bound; [lia|done].
Qed.

Lemma graph_custom_edges_at_most_pairs_witness :
  let w := sample_world [2; 0; 2; 1; 2; 1; 0] in
  (2 ≤ 3 ∧ tree_of w 3 = Ok (path_graph 3) ∧ is_tree 3 (path_graph 3)) ∧
  ∃ G w', graph_custom 3 false w = (Ok G, w') ∧
          2 * Z.of_nat (number_of_edges G) ≤ 3 * (3 - 1).
Proof.
  assert (is_tree 3 (path_graph 3)) as HT by (apply path_graph_is_tree; lia).
  split; [split_and!; [lia|reflexivity|exact HT]|].
  assert (∃ G w', graph_custom 3 false (sample_world [2; 0; 2; 1; 2; 1; 0]) = (Ok G, w'))
    as (G & w' & Hrun) by (eexists _, _; vm_compute; reflexivity).
  exists G, w'. split; [exact Hrun|].
  apply (graph_custom_edges_at_most_pairs 3 false (path_graph 3)
           (sample_world [2; 0; 2; 1; 2; 1; 0]) G w'); [lia|reflexivity|exact HT|exact Hrun].
Defined.

(** X3. On two nodes the loop cannot add anything: when [random_tree]
    answers with a tree [T] on two nodes, [graph_custom 2] returns [T]
    itself, whatever pairs are drawn. *)
Theorem graph_custom_two_nodes show_plot T w G w' :
  tree_of w 2 = Ok T → is_tree 2 T →
  graph_custom 2 show_plot w = (Ok G, w') →
  G = T.
Proof.
  intros Htree HT Hrun.
  destruct (graph_custom_returns 2 show_plot T w ltac:(lia) Htree HT)
    as [Hpost _].
  destruct (Hpost G w' Hrun) as ((HnG & HcG & HlG & _) & _).
  pose proof (graph_custom_log_wp 2 show_plot T w ltac:(lia) Htree) as Hwp.
  unfold wp in Hwp. rewrite Hrun in Hwp. destruct Hwp as (Hsub & _).
  destruct HT as ((HnT & _) & _ & HsizeT).
  assert (edges G ⊆ {[(0, 1)]}) as HG.
  { intros [a b] Hin. destruct (HcG a b Hin) as [Ha Hb].
    rewrite HnG in Ha, Hb. apply elem_of_node_range in Ha, Hb.
    specialize (HlG a b Hin). apply elem_of_singleton. f_equal; lia. }
  assert (edges T = edges G) as Hedges.
  { apply set_subseteq_size_eq; [done|].
    unfold number_of_edges in HsizeT.
    pose proof (subseteq_size _ _ HG) as Hle. rewrite size_singleton in Hle.
    lia. }
  destruct G, T. simpl in *. by subst.
Qed.

Lemma graph_custom_two_nodes_witness :
  let w := sample_world [1; 1; 0; 0; 0] in
  (tree_of w 2 = Ok (path_graph 2) ∧ is_tree 2 (path_graph 2)) ∧
  ∃ G w', graph_custom 2 false w = (Ok G, w') ∧ G = path_graph 2.
Proof.
  assert (is_tree 2 (path_graph 2)) as HT by (apply path_graph_is_tree; lia).
  split; [split; [reflexivity|exact HT]|].
  assert (∃ G w', graph_custom 2 false (sample_world [1; 1; 0; 0; 0]) = (Ok G, w'))
    as (G & w' & Hrun) by (eexists _, _; vm_compute; reflexivity).
  exists G, w'. split; [exact Hrun|].
  apply (graph_custom_two_nodes false (path_graph 2)
           (sample_world [1; 1; 0; 0; 0]) G w' eq_refl HT Hrun).
Defined.

(** X4. Without [show_plot], [graph_custom] never plots: in every run,
    returning or raising, it only calls [random_tree], [randint], [choice],
    [has_edge] and [add_edge], and neither [nx.draw] nor [plt.show]. *)
Theorem graph_custom_no_plot n_nodes w :
  ∃ new, log (graph_custom n_nodes false w).2 = new ++ log w ∧
         Forall (λ ev, ev_fn ev ∈ graph_custom_core_calls ∧
                       ev_fn ev ≠ "nx.draw" ∧ ev_fn ev ≠ "plt.show") new.
Proof.
  apply (graph_custom_logs_all
           (λ ev, ev_fn ev ∈ graph_custom_core_calls ∧
                  ev_fn ev ≠ "nx.draw" ∧ ev_fn ev ≠ "plt.show"));
    try (intros; simpl; split; [|done];
         unfold graph_custom_core_calls; rewrite !elem_of_cons; tauto).
  done.
Qed.

(** X5. With [show_plot], a run of [graph_custom] that returns [G] ends
    with [nx.draw(G, with_labels=True)] and then [plt.show()]: the graph
    drawn is the graph returned, after the loop is over. *)
Theorem graph_custom_plots_result n_nodes w G w' :
  graph_custom n_nodes true w = (Ok G, w') →
  ∃ before,
    trace w' =
    before ++ [Ev "nx.draw" [VGraph G; VKw "with_labels" (VBool true)] None;
               Ev "plt.show" [] None].
Proof.
  unfold graph_custom, mbind, M_bind, bind.
  destruct (random_tree n_nodes w) as [[T|e1] w1]; [|done].
  destruct (randint 1 (n_nodes + 1) w1) as [[r|e2] w2]; [|done].
  destruct (for_range _ _ T w2) as [[G'|e3] w3]; [|done].
  unfold call, lib, ret.
  destruct (faults w3 (length (log w3))); [done|]. cbn [set_log log faults].
  destruct (faults w3 _); [done|]. intros [= <- <-].
  exists (trace w3). unfold trace. simpl.
  by rewrite !reverse_cons, <- app_assoc.
Qed.

Lemma graph_custom_plots_result_witness :
  ∃ G w', graph_custom 2 true (sample_world [0; 1; 0]) = (Ok G, w') ∧
  ∃ before,
    trace w' =
    before ++ [Ev "nx.draw" [VGraph G; VKw "with_labels" (VBool true)] None;
               Ev "plt.show" [] None].
Proof.
  assert (∃ G w', graph_custom 2 true (sample_world [0; 1; 0]) = (Ok G, w'))
    as (G & w' & Hrun) by (eexists _, _; vm_compute; reflexivity).
  exists G, w'. split; [exact Hrun|].
  apply (graph_custom_plots_result 2 (sample_world [0; 1; 0]) G w' Hrun).
Defined.

(** X6. The guard of the loop works: in every run of [graph_custom], each
    call [G.add_edge(u, v)] joins two distinct nodes between which [G] had
    no edge; an existing edge is never added again and no self-loop is ever
    added. *)
Theorem graph_custom_adds_fresh_edges n_nodes show_plot w :
  ∃ new, log (graph_custom n_nodes show_plot w).2 = new ++ log w ∧
         Forall fresh_add_edge new.
Proof.
  apply (graph_custom_logs_all fresh_add_edge); try (intros; by intros ?).
  - intros G u v Hne Hnew _. by exists G, u, v.
  - intros _ args o. by split; intros ?.
Qed.

(** X7. The loop runs between 1 and [n_nodes] times, and the returned graph
    has exactly as many edges more than the tree as there were [G.add_edge]
    calls: for [n_nodes >= 2], a run that returns [G] made between 1 and
    [n_nodes] calls of [np.random.choice], one [G.has_edge] per draw, and
    [number_of_edges G] is the tree's plus the number of [G.add_edge]
    calls. *)
Theorem graph_custom_loop_calls n_nodes show_plot T w G w' :
  2 ≤ n_nodes → tree_of w n_nodes = Ok T →
  graph_custom n_nodes show_plot w = (Ok G, w') →
  ∃ new, log w' = new ++ log w ∧
    (1 ≤ count_calls "np.random.choice" new ≤ Z.to_nat n_nodes)%nat ∧
    count_calls "G.has_edge" new = count_calls "np.random.choice" new ∧
    (count_calls "G.add_edge" new ≤ count_calls "np.random.choice" new)%nat ∧
    number_of_edges G =
      (number_of_edges T + count_calls "G.add_edge" new)%nat.
Proof.
  intros Hn Htree Hrun.
  pose proof (graph_custom_log_wp n_nodes show_plot T w Hn Htree) as Hwp.
  unfold wp in Hwp. rewrite Hrun in Hwp.
  destruct Hwp as (_ & _ & new & Hlog & Hchoice & Hhas & Hadd & Hsize).
  by exists new.
Qed.

Lemma graph_custom_loop_calls_witness :
  let w := sample_world [1; 0; 1; 2; 0] in
  (2 ≤ 3 ∧ tree_of w 3 = Ok (path_graph 3)) ∧
  ∃ G w', graph_custom 3 false w = (Ok G, w') ∧
  ∃ new, log w' = new ++ log w ∧
    (1 ≤ count_calls "np.random.choice" new ≤ Z.to_nat 3)%nat ∧
    count_calls "G.has_edge" new = count_calls "np.random.choice" new ∧
    (count_calls "G.add_edge" new ≤ count_calls "np.random.choice" new)%nat ∧
    number_of_edges G =
      (number_of_edges (path_graph 3) + count_calls "G.add_edge" new)%nat.
Proof.
  split; [split; [lia|reflexivity]|].
  assert (∃ G w', graph_custom 3 false (sample_world [1; 0; 1; 2; 0]) = (Ok G, w'))
    as (G & w' & Hrun) by (eexists _, _; vm_compute; reflexivity).
  exists G, w'. split; [exact Hrun|].
  apply (graph_custom_loop_calls 3 false (path_graph 3)
           (sample_world [1; 0; 1; 2; 0]) G w'); [lia|reflexivity|exact Hrun].
Defined.

(** X8. With no node, or a negative number of nodes, [graph_custom] stops
    before the loop: either [random_tree] raises and nothing else is called,
    or it returns and [np.random.randint(1, n_nodes + 1)] raises
    [ValueError]; [np.random.choice] is never called. *)
Theorem graph_custom_no_nodes_stops_early n_nodes show_plot w :
  n_nodes ≤ 0 →
  let run := graph_custom n_nodes show_plot w in
  (∃ e, tree_of w n_nodes = Raise e ∧ run.1 = Raise e ∧
        trace run.2 =
        trace w ++ [Ev "nx.generators.trees.random_tree" [VInt n_nodes]
                       (Some e)]) ∨
  (∃ T, tree_of w n_nodes = Ok T ∧ run.1 = Raise ValueError ∧
        trace run.2 =
        trace w ++ [Ev "nx.generators.trees.random_tree" [VInt n_nodes] None;
                    Ev "np.random.randint" [VInt 1; VInt (n_nodes + 1)]
                       (Some ValueError)]).
Proof.
  intros Hn. cbv zeta.
  unfold graph_custom, random_tree, randint, draw, lib, mbind, M_bind, bind.
  destruct (tree_of w n_nodes) as [T|e] eqn:Htree; simpl.
  - right. exists T. destruct (Z.ltb_spec 1 (n_nodes + 1)) as [?|_]; [lia|].
    simpl. split_and!; [done..|]. unfold trace. simpl.
    by rewrite !reverse_cons, <- app_assoc.
  - left. exists e. split_and!; [done..|]. unfold trace. simpl.
    by rewrite reverse_cons.
Qed.

Lemma graph_custom_no_nodes_stops_early_witness :
  let run := graph_custom (-3) true (sample_world [5]) in
  -3 ≤ 0 ∧
  ((∃ e, tree_of (sample_world [5]) (-3) = Raise e ∧ run.1 = Raise e ∧
         trace run.2 =
         trace (sample_world [5]) ++
           [Ev "nx.generators.trees.random_tree" [VInt (-3)] (Some e)]) ∨
   (∃ T, tree_of (sample_world [5]) (-3) = Ok T ∧ run.1 = Raise ValueError ∧
         trace run.2 =
         trace (sample_world [5]) ++
           [Ev "nx.generators.trees.random_tree" [VInt (-3)] None;
            Ev "np.random.randint" [VInt 1; VInt (-3 + 1)]
               (Some ValueError)])).
Proof.
  split; [lia|].
  apply (graph_custom_no_nodes_stops_early (-3) true (sample_world [5])). lia.
Defined.

(** X9. With one node, when [random_tree] returns, the loop is entered once
    and its first draw fails: [randint(1, 2)] returns 1, and
    [np.random.choice(1, 2, replace=False)] raises [ValueError] before any
    edge is tested or added. *)
Theorem graph_custom_one_node_raises_in_loop show_plot w T :
  tree_of w 1 = Ok T →
  let run := graph_custom 1 show_plot w in
  run.1 = Raise ValueError ∧
  trace run.2 =
  trace w ++
    [Ev "nx.generators.trees.random_tree" [VInt 1] None;
     Ev "np.random.randint" [VInt 1; VInt 2] None;
     Ev "np.random.choice" [VInt 1; VInt 2; VKw "replace" (VBool false)]
        (Some ValueError)].
Proof.
  intros Htree. cbv zeta.
  unfold graph_custom, random_tree, randint, draw, lib, mbind, M_bind, bind.
  rewrite Htree. simpl. rewrite Z.mod_1_r. simpl.
  unfold mbind, M_bind, bind. simpl. split; [done|].
  unfold trace. simpl. by rewrite !reverse_cons, <- !app_assoc.
Qed.

Lemma graph_custom_one_node_raises_in_loop_witness :
  let w := sample_world [8; 3] in
  let run := graph_custom 1 false w in
  tree_of w 1 = Ok (path_graph 1) ∧
  run.1 = Raise ValueError ∧
  trace run.2 =
  trace w ++
    [Ev "nx.generators.trees.random_tree" [VInt 1] None;
     Ev "np.random.randint" [VInt 1; VInt 2] None;
     Ev "np.random.choice" [VInt 1; VInt 2; VKw "replace" (VBool false)]
        (Some ValueError)].
Proof.
  split; [reflexivity|].
  apply (graph_custom_one_node_raises_in_loop false (sample_world [8; 3])
           (path_graph 1)).
  reflexivity.
Defined.

(** * Stopping at the first failure *)

Lemma calm_app l1 l2 : calm l1 → calm l2 → calm (l1 ++ l2).
Proof. unfold calm. intros. by apply Forall_app. Qed.

Lemma unwinds_app new2 new1 r :
  unwinds new2 r → calm new1 → unwinds (new2 ++ new1) r.
Proof.
  destruct r as [e|]; simpl.
  - intros (exits & ev & before & -> & Hexits & Hev & Hcalm) Hcalm1.
    exists exits, ev, (before ++ new1). rewrite <- app_assoc. simpl.
    split_and!; try done. by apply calm_app.
  - intros. by apply calm_app.
Qed.

Section fail_fast_rules.
Context {A B : Type}.

Lemma fail_fast_ret (a : A) : fail_fast (mret a).
Proof. intros w. exists []. split; [done|]. by apply Forall_nil. Qed.

Lemma fail_fast_bind (m : M B) (f : B → M A) :
  fail_fast m → (∀ b, fail_fast (f b)) → fail_fast (m ≫= f).
Proof.
  intros Hm Hf w. destruct (Hm w) as (new1 & Hlog1 & Hun1).
  unfold mbind, M_bind, bind. destruct (m w) as [[b|e] w1]; simpl in *.
  - destruct (Hf b w1) as (new2 & Hlog2 & Hun2).
    exists (new2 ++ new1). rewrite Hlog2, Hlog1, app_assoc. split; [done|].
    by apply unwinds_app.
  - by exists new1.
Qed.

Lemma fail_fast_lib fn args (r : Result A) : fail_fast (lib fn args r).
Proof.
  intros w. exists [Ev fn args (exn_of r)]. split; [done|].
  destruct r as [a|e]; simpl.
  - by apply Forall_singleton.
  - exists [], (Ev fn args (Some e)), []. split_and!; try done;
      by apply Forall_nil.
Qed.

Lemma fail_fast_if (b : bool) (m1 m2 : M A) :
  fail_fast m1 → fail_fast m2 → fail_fast (if b then m1 else m2).
Proof. by destruct b. Qed.
End fail_fast_rules.

Lemma fail_fast_for_range {A} n (body : A → M A) acc :
  (∀ a, fail_fast (body a)) → fail_fast (for_range n body acc).
Proof.
  intros Hbody. revert acc. induction n as [|n IH]; intros acc; simpl.
  - apply fail_fast_ret.
  - by apply fail_fast_bind.
Qed.

Lemma fail_fast_call fn args : fail_fast (call fn args).
Proof. intros w. unfold call. apply fail_fast_lib. Qed.

Lemma fail_fast_draw : fail_fast draw.
Proof. intros w. exists []. split; [done|]. by apply Forall_nil. Qed.

Lemma fail_fast_randint low high : fail_fast (randint low high).
Proof.
  apply fail_fast_bind; [apply fail_fast_draw|]. intros. apply fail_fast_lib.
Qed.

Lemma fail_fast_choice2 n : fail_fast (choice2 n).
Proof.
  do 2 (apply fail_fast_bind; [apply fail_fast_draw|]; intros).
  apply fail_fast_lib.
Qed.

Lemma fail_fast_random_tree n : fail_fast (random_tree n).
Proof. intros w. unfold random_tree. apply fail_fast_lib. Qed.

Lemma fail_fast_np_save file arr : fail_fast (np_save file arr).
Proof.
  apply fail_fast_bind; [apply fail_fast_call|].
  intros r w. exists []. split; [done|]. by apply Forall_nil.
Qed.

Lemma fail_fast_with_context {A} ctx (body : value → M A) :
  (∀ q, fail_fast (body q)) → fail_fast (with_context ctx body).
Proof.
  intros Hbody. apply fail_fast_bind; [apply fail_fast_call|].
  intros q w. destruct (Hbody q w) as (new1 & Hlog1 & Hun1).
  destruct (body q w) as [[a|e] w1]; simpl in *.
  - unfold mbind, M_bind, bind, call, lib, ret. simpl.
    exists (Ev "__exit__" [ctx; VNone; VNone; VNone]
               (exn_of (match faults w1 (length (log w1)) with
                        | Some e' => Raise e'
                        | None => Ok (VObj (length (log w1)))
                        end)) :: new1).
    destruct (faults w1 (length (log w1))) as [e'|]; simpl; rewrite Hlog1;
      (split; [done|]).
    + eexists [], _, new1. split_and!; try done; by apply Forall_nil.
    + by apply Forall_cons.
  - unfold mbind, M_bind, bind, call, lib, reraise. simpl.
    destruct Hun1 as (exits & ev & before & -> & Hexits & Hev & Hcalm).
    exists (Ev "__exit__" [ctx; VExn e]
               (exn_of (match faults w1 (length (log w1)) with
                        | Some e' => Raise e'
                        | None => Ok (VObj (length (log w1)))
                        end)) :: exits ++ ev :: before).
    destruct (faults w1 (length (log w1))) as [e'|]; simpl; rewrite Hlog1;
      (split; [done|]);
      eexists (_ :: exits), ev, before; split_and!; try done;
      by apply Forall_cons.
Qed.

Create HintDb fail_fast.
#[export] Hint Resolve fail_fast_ret fail_fast_lib fail_fast_call fail_fast_draw
  fail_fast_randint fail_fast_choice2 fail_fast_random_tree fail_fast_np_save
  : fail_fast.

Ltac fail_fast_script :=
  repeat first
    [ progress auto with fail_fast
    | apply fail_fast_with_context
    | apply fail_fast_for_range
    | apply fail_fast_if
    | apply fail_fast_bind
    | match goal with
      | |- ∀ _, _ => intro
      | |- fail_fast (match ?x with _ => _ end) => destruct x
      | |- fail_fast (ret ?a) => apply (fail_fast_ret a)
      end ].

(** X10. Every function and script stops at the first library call that
    raises: in every run, the calls logged before the raising call all
    returned, and after it nothing is called except the [__exit__] of the
    [with] block being left; a run that returns logged no raising call. *)
Theorem scripts_fail_fast :
  (∀ n_nodes show_plot, fail_fast (graph_custom n_nodes show_plot)) ∧
  (∀ G n_nodes, fail_fast (gen_random_search G n_nodes)) ∧
  fail_fast graph_custom_script ∧
  fail_fast Teleportation.teleportation ∧
  fail_fast Simulation.simulation.
Proof.
  assert (∀ n_nodes show_plot, fail_fast (graph_custom n_nodes show_plot))
    as Hgc.
  { intros. unfold graph_custom, has_edge, add_edge. fail_fast_script. }
  assert (∀ G n_nodes, fail_fast (gen_random_search G n_nodes)) as Hgrs.
  { intros. unfold gen_random_search. fail_fast_script. }
  split_and!; [done|done|..].
  - unfold graph_custom_script, graph_custom_py. simpl.
    by apply fail_fast_bind.
  - unfold Teleportation.teleportation. fail_fast_script.
  - unfold Simulation.simulation, setattr. fail_fast_script.
Qed.

(** * [gen_random_search] and the file it writes *)

(** case analysis on the outcome of one opaque call *)
Lemma run_call fn args w (Φ : Result value * World → Prop) :
  (∀ e, Φ (Raise e, set_log (Ev fn args (Some e) :: log w) w)) →
  Φ (Ok (VObj (length (log w))), set_log (Ev fn args None :: log w) w) →
  Φ (call fn args w).
Proof.
  intros Hraise Hok. unfold call, lib.
  by destruct (faults w (length (log w))).
Qed.

(** run a script whose binds are unfolded, one library call after the
    other, in the order of evaluation *)
Ltac run_step :=
  match goal with
  | |- context [call ?fn ?args ?w] =>
      pattern (call fn args w); apply run_call; [intros ?|];
      cbn [log faults files set_log set_files length exn_of fst snd]
  end.

(** X11. [np.save] is the last thing [gen_random_search] does: in every run,
    either the thirteen calls before it all returned and [np.save] was then
    called with ['samples.npy'] and [results.samples], or the run raised
    without calling [np.save] and without writing any file. *)
Theorem gen_random_search_saves_last G n_nodes w :
  let k := length (log w) in
  let run := gen_random_search G n_nodes w in
  (∃ o, trace run.2 =
        trace w ++ (returned <$> gen_random_search_setup G n_nodes k) ++
        [Ev "np.save" [VStr "samples.npy"; VAttr (VObj (11 + k)) "samples"] o]) ∨
  (∃ e, run.1 = Raise e ∧
        count_calls "np.save" (log run.2) = count_calls "np.save" (log w) ∧
        files run.2 = files w).
Proof.
  destruct w as [rng0 tree0 faults0 log0 files0]. cbv zeta.
  unfold gen_random_search, with_context, np_save, reraise,
    mbind, M_bind, bind, mret, M_ret, ret.
  cbn [log faults files set_log set_files length exn_of fst snd].
  repeat run_step;
    first
      [ right; eexists; split_and!;
        [reflexivity|count_calls_simpl; reflexivity|reflexivity]
      | left; eexists; unfold trace, gen_random_search_setup; simpl;
        rewrite !reverse_cons, <- !app_assoc; reflexivity ].
Qed.

(** when no library call raises, [gen_random_search] makes its fourteen
    calls and returns [None] *)
Lemma gen_random_search_run G n_nodes w :
  no_faults w →
  let k := length (log w) in
  gen_random_search G n_nodes w =
  (Ok VNone,
   set_files (<["samples.npy" := VAttr (VObj (11 + k)) "samples"]> (files w))
     (set_log
        (reverse
           (returned <$>
            gen_random_search_setup G n_nodes k ++
            [("np.save", [VStr "samples.npy"; VAttr (VObj (11 + k)) "samples"])])
         ++ log w) w)).
Proof.
  intros Hnf. destruct w as [rng0 tree0 faults0 log0 files0].
  unfold no_faults in Hnf. simpl in Hnf.
  unfold gen_random_search. run_calls Hnf. reflexivity.
Qed.

(** [graph_custom] touches neither the files nor the answers of the
    libraries *)
Lemma graph_custom_frame n_nodes show_plot w :
  faults (graph_custom n_nodes show_plot w).2 = faults w ∧
  files (graph_custom n_nodes show_plot w).2 = files w.
Proof.
  enough (wp (graph_custom n_nodes show_plot) w
             (λ _ w', faults w' = faults w ∧ files w' = files w)
             (λ _ w', faults w' = faults w ∧ files w' = files w)) as Hwp.
  { unfold wp in Hwp.
    by destruct (graph_custom n_nodes show_plot w) as [[G|e] w']. }
  unfold graph_custom.
  apply wp_bind. unfold random_tree. apply wp_lib. cbv zeta.
  destruct (tree_of w n_nodes) as [T|e]; [|done].
  apply wp_bind. unfold randint. apply wp_bind, wp_draw, wp_lib. cbv zeta.
  destruct (1 <? n_nodes + 1); [|done].
  apply wp_bind.
  eapply wp_mono;
    [| |apply (wp_for_range
                 (λ _ _ w', faults w' = faults w ∧ files w' = files w) _
                 (λ _ w', faults w' = faults w ∧ files w' = files w))
           with (k := 0%nat)].
  - intros G w2 [Hf2 Hg2]. apply wp_bind. destruct show_plot.
    + apply wp_bind, wp_call. cbv zeta. destruct (faults w2 _); [done|].
      apply wp_bind, wp_call. cbv zeta. destruct (faults _ _); [done|].
      by apply wp_ret, wp_ret.
    + by apply wp_ret, wp_ret.
  - done.
  - intros k G w2 [Hf2 Hg2]. unfold choice2.
    apply wp_bind, wp_bind, wp_draw, wp_bind, wp_draw, wp_lib. cbv zeta.
    destruct (n_nodes <? 2); [done|].
    apply wp_bind, wp_lib. cbv zeta.
    destruct (nx_has_edge G _ _); simpl; [by apply wp_ret|by apply wp_lib].
  - done.
Qed.

Lemma size_node_range n : 0 ≤ n → size (node_range n) = Z.to_nat n.
Proof.
  intros Hn. unfold node_range.
  rewrite size_list_to_set by apply NoDup_seqZ. apply length_seqZ.
Qed.

(** X12. Run as a script, graph_custom.py hands to [gen_random_search] the
    graph that [graph_custom(show_plot=True)] returned, on as many nodes as
    the program has modes: when [random_tree] answers with a tree on 10
    nodes and no library call raises, the script returns, the graph [G]
    whose adjacency matrix is embedded is connected and simple on 10 nodes,
    the program is declared on 10 modes, and 'samples.npy' is the only file
    written. *)
Theorem graph_custom_script_run w T :
  tree_of w 10 = Ok T → is_tree 10 T → no_faults w →
  ∃ G w1,
    graph_custom 10 true w = (Ok G, w1) ∧
    graph_custom_post 10 G ∧ size (nodes G) = 10%nat ∧
    let k := length (log w1) in
    let run := graph_custom_script w in
    run.1 = Ok VNone ∧
    trace run.2 =
      trace w1 ++
      (returned <$>
       gen_random_search_setup G 10 k ++
       [("np.save", [VStr "samples.npy"; VAttr (VObj (11 + k)) "samples"])]) ∧
    files run.2 =
      <["samples.npy" := VAttr (VObj (11 + k)) "samples"]> (files w).
Proof.
  intros Htree HT Hnf.
  destruct (graph_custom_returns 10 true T w ltac:(lia) Htree HT)
    as [_ Hret].
  destruct (Hret (or_intror Hnf)) as (G & w1 & Hrun & Hpost).
  pose proof (graph_custom_frame 10 true w) as [Hfaults Hfiles].
  rewrite Hrun in Hfaults, Hfiles. simpl in Hfaults, Hfiles.
  assert (no_faults w1) as Hnf1 by (intros i; by rewrite Hfaults).
  exists G, w1. split_and!; [done|done|..].
  - destruct Hpost as ((-> & _) & _). by rewrite size_node_range.
  - cbv zeta. unfold graph_custom_script, graph_custom_py. simpl.
    unfold mbind, M_bind, bind. rewrite Hrun.
    rewrite (gen_random_search_run G 10 w1 Hnf1). simpl.
    split_and!; [done| |by rewrite Hfiles].
    unfold trace. simpl. by rewrite !reverse_cons, <- !app_assoc.
Qed.

Lemma graph_custom_script_run_witness :
  let w := sample_world [4; 0; 5; 9; 2; 3; 3; 1; 0; 7; 6] in
  (tree_of w 10 = Ok (path_graph 10) ∧ is_tree 10 (path_graph 10) ∧
   no_faults w) ∧
  ∃ G w1,
    graph_custom 10 true w = (Ok G, w1) ∧
    graph_custom_post 10 G ∧ size (nodes G) = 10%nat ∧
    let k := length (log w1) in
    let run := graph_custom_script w in
    run.1 = Ok VNone ∧
    trace run.2 =
      trace w1 ++
      (returned <$>
       gen_random_search_setup G 10 k ++
       [("np.save", [VStr "samples.npy"; VAttr (VObj (11 + k)) "samples"])]) ∧
    files run.2 =
      <["samples.npy" := VAttr (VObj (11 + k)) "samples"]> (files w).
Proof.
  assert (is_tree 10 (path_graph 10)) as HT by (apply path_graph_is_tree; lia).
  split; [split_and!; [reflexivity|exact HT|intros i; reflexivity]|].
  apply (graph_custom_script_run
           (sample_world [4; 0; 5; 9; 2; 3; 3; 1; 0; 7; 6]) (path_graph 10));
    [reflexivity|exact HT|intros i; reflexivity].
Defined.

(** * simulation.py when a library call raises *)

(** a sequence of calls runs up to the first call that the world makes
    raise, and stops there *)
Lemma straight_calls_stop cs w :
  let run := straight (SCall <$> cs) w in
  let k := length (log w) in
  (run.1 = Ok VNone ∧
   log run.2 = reverse (returned <$> cs) ++ log w ∧
   ∀ j, (j < length cs)%nat → faults w (k + j)%nat = None) ∨
  (∃ i c e, cs !! i = Some c ∧ run.1 = Raise e ∧
            log run.2 = raised c e :: reverse (returned <$> take i cs) ++ log w ∧
            faults w (k + i)%nat = Some e ∧
            ∀ j, (j < i)%nat → faults w (k + j)%nat = None).
Proof.
  revert w. induction cs as [|c cs IH]; intros w; cbv zeta.
  - left. split_and!; [done..|]. intros j Hj. simpl in Hj. lia.
  - rewrite fmap_cons. simpl straight.
    unfold mbind, M_bind, bind, call, lib.
    destruct (faults w (length (log w))) as [e|] eqn:Hf.
    + right. exists 0%nat, c, e. simpl. rewrite Nat.add_0_r.
      split_and!; [done..|]. intros j Hj. lia.
    + set (w1 := set_log (Ev c.1 c.2 None :: log w) w).
      destruct (IH w1) as [(Hres & Hlog & Hnone)|(i & c' & e & Hc & Hres & Hlog & Hi & Hnone)].
      * left. cbn [exn_of]. fold w1. rewrite Hlog. split_and!; [done| |].
        -- simpl. by rewrite reverse_cons, <- app_assoc.
        -- intros [|j] Hj; [by rewrite Nat.add_0_r|].
           specialize (Hnone j ltac:(simpl in Hj; lia)). simpl in Hnone.
           by rewrite Nat.add_succ_r.
      * right. exists (S i), c', e. cbn [exn_of]. fold w1. rewrite Hlog.
        split_and!; [done|done| | |].
        -- simpl. by rewrite reverse_cons, <- app_assoc.
        -- simpl in Hi. by rewrite Nat.add_succ_r.
        -- intros [|j] Hj; [by rewrite Nat.add_0_r|].
           specialize (Hnone j ltac:(lia)). simpl in Hnone.
           by rewrite Nat.add_succ_r.
Qed.

(** X13. simulation.py stops at the first library call that raises: started
    as a fresh process, either all seven calls return, or the run raises the
    exception of the first call [i] that the libraries make fail, after the
    [i] calls before it returned, and makes no call after it; in particular
    [sim.step(1000)] is called only when the six calls before it
    returned. *)
Theorem simulation_stops_at_first_failure w :
  log w = [] →
  let run := Simulation.simulation w in
  let calls := program_trace Simulation_flat.program in
  (run.1 = Ok VNone ∧ trace run.2 = returned <$> calls ∧
   ∀ j, (j < 7)%nat → faults w j = None) ∨
  (∃ i c e, calls !! i = Some c ∧ run.1 = Raise e ∧
            trace run.2 = (returned <$> take i calls) ++ [raised c e] ∧
            faults w i = Some e ∧ ∀ j, (j < i)%nat → faults w j = None).
Proof.
  intros Hfresh. cbv zeta. rewrite simulation_straight by done.
  pose proof (straight_calls_stop
                (program_trace Simulation_flat.program) w) as Hstop.
  cbv zeta in Hstop. rewrite Hfresh in Hstop. simpl length in Hstop.
  change (SCall <$> program_trace Simulation_flat.program)
    with Simulation_flat.program in Hstop.
  destruct Hstop as [(Hres & Hlog & Hnone)|(i & c & e & Hc & Hres & Hlog & Hi & Hnone)].
  - left. unfold trace. rewrite Hlog, app_nil_r, reverse_involutive.
    split_and!; [done|done|]. intros j Hj. by apply (Hnone j).
  - right. exists i, c, e. unfold trace.
    rewrite Hlog, app_nil_r, reverse_cons, reverse_involutive.
    by split_and!.
Qed.

Lemma simulation_stops_at_first_failure_witness :
  let w := {| rng := []; tree_of := λ _, Raise ValueError;
              faults := λ k, if (k =? 3)%nat
                             then Some (LibraryError "FieldDiagnostic")
                             else None;
              log := []; files := ∅ |} in
  let run := Simulation.simulation w in
  let calls := program_trace Simulation_flat.program in
  log w = [] ∧
  ((run.1 = Ok VNone ∧ trace run.2 = returned <$> calls ∧
    ∀ j, (j < 7)%nat → faults w j = None) ∨
   (∃ i c e, calls !! i = Some c ∧ run.1 = Raise e ∧
             trace run.2 = (returned <$> take i calls) ++ [raised c e] ∧
             faults w i = Some e ∧ ∀ j, (j < i)%nat → faults w j = None)).
Proof.
  split; [reflexivity|].
  apply (simulation_stops_at_first_failure
           {| rng := []; tree_of := λ _, Raise ValueError;
              faults := λ k, if (k =? 3)%nat
                             then Some (LibraryError "FieldDiagnostic")
                             else None;
              log := []; files := ∅ |}).
  reflexivity.
Defined.

(** * teleportation.py when a library call raises *)

(** X14. teleportation.py submits a job only for a completely built
    circuit: started as a fresh process, in every run either the 23 calls
    before [eng.run] (seed, program, the whole [with] block and its
    [__exit__], the remote engine) all returned, or the run raised without
    ever calling [eng.run]. *)
Theorem teleportation_submits_complete_circuit w :
  log w = [] →
  let run := Teleportation.teleportation w in
  (∃ rest, trace run.2 =
           (returned <$> take 23 (program_trace Teleportation_flat.program))
           ++ rest) ∨
  (∃ e, run.1 = Raise e ∧ count_calls "eng.run" (log run.2) = 0%nat).
Proof.
  destruct w as [rng0 tree0 faults0 log0 files0]. simpl. intros ->.
  unfold Teleportation.teleportation, with_context, reraise,
    mbind, M_bind, bind, mret, M_ret, ret.
  cbn [log faults files set_log set_files length exn_of fst snd].
  repeat run_step;
    first
      [ right; eexists; split; [reflexivity|count_calls_simpl; reflexivity]
      | left; eexists; unfold trace; simpl; reflexivity ].
Qed.

Lemma teleportation_submits_complete_circuit_witness :
  let w := {| rng := []; tree_of := λ _, Raise ValueError;
              faults := λ k, if (k =? 11)%nat
                             then Some (LibraryError "BSgate")
                             else None;
              log := []; files := ∅ |} in
  let run := Teleportation.teleportation w in
  log w = [] ∧
  ((∃ rest, trace run.2 =
            (returned <$> take 23 (program_trace Teleportation_flat.program))
            ++ rest) ∨
   (∃ e, run.1 = Raise e ∧ count_calls "eng.run" (log run.2) = 0%nat)).
Proof.
  split; [reflexivity|].
  apply (teleportation_submits_complete_circuit
           {| rng := []; tree_of := λ _, Raise ValueError;
              faults := λ k, if (k =? 11)%nat
                             then Some (LibraryError "BSgate")
                             else None;
              log := []; files := ∅ |}).
  reflexivity.
Defined.
